(** * manual-approval: the approval-consensus engine of [approval.go]

    A shallow embedding of [approvalFromComments] and of the helpers it
    calls ([approversIndex], [isApproved], [isDenied]), together with the
    pieces of the Go runtime and standard library the function relies on:
    byte strings, [strings.Contains], [strings.Split], the three regular
    expressions, slices updated in place, maps (including the nil map) and
    run-time panics. *)

From Stdlib Require Import ZArith Ascii String List Bool Lia.
From Stdlib Require Import Decimal DecimalString DecimalPos DecimalZ.
From stdpp Require Import base option list gmap strings.

Local Open Scope Z_scope.

(** ** Go runtime: panics *)

(** A Go computation either produces a value or panics with a run-time
    error message. *)
Inductive go (A : Type) : Type :=
  | Ok (a : A)
  | Panic (msg : string).
Arguments Ok {A} a.
Arguments Panic {A} msg.

Global Instance go_ret : MRet go := fun A a => Ok a.

Global Instance go_bind : MBind go := fun A B k m =>
  match m with
  | Ok a => k a
  | Panic msg => Panic msg
  end.

(** Go errors created with [fmt.Errorf]: the formatted message. *)
Inductive error : Type := Errorf (msg : string).

Global Instance error_eq_dec : EqDecision error.
Proof. solve_decision. Defined.

(** ** Go strings *)

(** A Go string is a sequence of bytes; [string] is a list of 8-bit
    [ascii] characters, so a UTF-8 encoded rune takes one to four
    characters. *)

(** [strings.Contains(s, sep)] for a one-byte [sep]. *)
Fixpoint Contains (s : string) (sep : ascii) : bool :=
  match s with
  | EmptyString => false
  | String c s' => if Ascii.eqb c sep then true else Contains s' sep
  end.

(** [strings.Split(s, sep)] for a one-byte [sep]: the pieces of [s] between
    the occurrences of [sep]; one piece more than there are occurrences, so
    the result is never empty. *)
Fixpoint Split (s : string) (sep : ascii) : list string :=
  match s with
  | EmptyString => [""]
  | String c s' =>
      if Ascii.eqb c sep then "" :: Split s' sep
      else match Split s' sep with
           | piece :: rest => String c piece :: rest
           | [] => [String c ""]
           end
  end.

(** ** Regular expressions over bytes *)

(** The fragment of RE2 syntax the program uses, after parsing: character
    classes (a literal is a one-element class), alternation,
    concatenation and repetition. A multi-byte rune is the concatenation
    of its bytes, as in the byte programs RE2 compiles to. *)
Inductive regex : Type :=
  | Void
  | Eps
  | Class (p : ascii → bool)
  | Alt (r1 r2 : regex)
  | Cat (r1 r2 : regex)
  | Star (r : regex).

(** The language of a regular expression. *)
Inductive lang : regex → string → Prop :=
  | lang_eps : lang Eps ""
  | lang_class p a : p a = true → lang (Class p) (String a "")
  | lang_alt_l r1 r2 s : lang r1 s → lang (Alt r1 r2) s
  | lang_alt_r r1 r2 s : lang r2 s → lang (Alt r1 r2) s
  | lang_cat r1 r2 s1 s2 : lang r1 s1 → lang r2 s2 → lang (Cat r1 r2) (s1 +:+ s2)
  | lang_star_nil r : lang (Star r) ""
  | lang_star_more r s1 s2 :
      lang r s1 → lang (Star r) s2 → lang (Star r) (s1 +:+ s2).

Fixpoint nullable (r : regex) : bool :=
  match r with
  | Void => false
  | Eps => true
  | Class _ => false
  | Alt r1 r2 => nullable r1 || nullable r2
  | Cat r1 r2 => nullable r1 && nullable r2
  | Star _ => true
  end.

(** Derivative of [r] by the byte [a]. *)
Fixpoint deriv (a : ascii) (r : regex) : regex :=
  match r with
  | Void => Void
  | Eps => Void
  | Class p => if p a then Eps else Void
  | Alt r1 r2 => Alt (deriv a r1) (deriv a r2)
  | Cat r1 r2 =>
      if nullable r1 then Alt (Cat (deriv a r1) r2) (deriv a r2)
      else Cat (deriv a r1) r2
  | Star r' => Cat (deriv a r') (Star r')
  end.

(** Whole-text match: the text is consumed byte by byte. *)
Fixpoint fullMatch (r : regex) (s : string) : bool :=
  match s with
  | EmptyString => nullable r
  | String a s' => fullMatch (deriv a r) s'
  end.

(** [regexp.MatchString(pattern, s)] for a pattern of the form [^r$]
    without the [m] flag: in RE2 syntax [^] and [$] then match only at the
    beginning and at the end of the text ([$] is not satisfied before a
    final newline), so the search succeeds exactly when [r] matches all of
    [s]. The error result reports a pattern that does not parse; the
    patterns here are given parsed, so it is nil. *)
Definition MatchString (r : regex) (s : string) : bool * option error :=
  (fullMatch r s, None).

(** *** Case folding

    Under the flag [(?i)] a literal rune matches every rune of its orbit
    under Unicode simple case folding ([unicode.SimpleFold]). For an ASCII
    letter that is the letter in both cases, and two letters have a third
    rune in their orbit: U+017F (long s, UTF-8 bytes C5 BF) folds with
    [s], and U+212A (Kelvin sign, UTF-8 bytes E2 84 AA) folds with [k]. *)

Definition isLower (a : ascii) : bool :=
  (97 <=? Z.of_N (N_of_ascii a)) && (Z.of_N (N_of_ascii a) <=? 122).

Definition isUpper (a : ascii) : bool :=
  (65 <=? Z.of_N (N_of_ascii a)) && (Z.of_N (N_of_ascii a) <=? 90).

Definition toLower (a : ascii) : ascii :=
  if isUpper a then ascii_of_N (N_of_ascii a + 32) else a.

Definition toUpper (a : ascii) : ascii :=
  if isLower a then ascii_of_N (N_of_ascii a - 32) else a.

Definition longS : string :=
  String (ascii_of_N 197) (String (ascii_of_N 191) "").

Definition kelvinSign : string :=
  String (ascii_of_N 226) (String (ascii_of_N 132) (String (ascii_of_N 170) "")).

(** The UTF-8 encodings of the runes in the fold orbit of the ASCII
    character [a]. *)
Definition foldOrbit (a : ascii) : list string :=
  if isLower a || isUpper a then
    [String (toLower a) ""; String (toUpper a) ""]
    ++ (if Ascii.eqb (toLower a) "s" then [longS]
        else if Ascii.eqb (toLower a) "k" then [kelvinSign]
        else [])
  else [String a ""].

(** A literal byte string. *)
Fixpoint literal (s : string) : regex :=
  match s with
  | EmptyString => Eps
  | String a s' => Cat (Class (Ascii.eqb a)) (literal s')
  end.

Fixpoint anyOf (rs : list regex) : regex :=
  match rs with
  | [] => Void
  | r :: rs' => Alt r (anyOf rs')
  end.

(** [(?i)w] for a word [w] of ASCII characters. *)
Fixpoint foldLiteral (w : string) : regex :=
  match w with
  | EmptyString => Eps
  | String a w' => Cat (anyOf (literal <$> foldOrbit a)) (foldLiteral w')
  end.

Definition newline : ascii := ascii_of_N 10.

(** The class [[.!]]. *)
Definition dotOrBang (a : ascii) : bool := Ascii.eqb a "." || Ascii.eqb a "!".

(** [fmt.Sprintf("(?i)^%s[.!]*\n*$", approvedWord)] *)
Definition approvedPattern (approvedWord : string) : regex :=
  Cat (foldLiteral approvedWord)
      (Cat (Star (Class dotOrBang)) (Star (Class (Ascii.eqb newline)))).

(** [fmt.Sprintf("(?i)^%s[.!]?$", deniedWord)] *)
Definition deniedPattern (deniedWord : string) : regex :=
  Cat (foldLiteral deniedWord) (Alt (Class dotOrBang) Eps).

(** ** constants.go *)

Definition approvedWords : list string := ["approved"; "approve"; "lgtm"; "yes"].
Definition deniedWords : list string := ["denied"; "deny"; "no"].

(** ** approval.go: the comment classifier *)

(** [isApproved]: the first word whose pattern fails to compile ends the
    loop with the error, the first word that matches ends it with true. *)
Fixpoint isApprovedLoop (words : list string) (commentBody : string)
  : bool * option error :=
  match words with
  | [] => (false, None)
  | approvedWord :: words' =>
      let '(matched, err) := MatchString (approvedPattern approvedWord) commentBody in
      match err with
      | Some e => (false, Some e)
      | None => if matched then (true, None) else isApprovedLoop words' commentBody
      end
  end.

Definition isApproved (commentBody : string) : bool * option error :=
  isApprovedLoop approvedWords commentBody.

Fixpoint isDeniedLoop (words : list string) (commentBody : string)
  : bool * option error :=
  match words with
  | [] => (false, None)
  | deniedWord :: words' =>
      let '(matched, err) := MatchString (deniedPattern deniedWord) commentBody in
      match err with
      | Some e => (false, Some e)
      | None => if matched then (true, None) else isDeniedLoop words' commentBody
      end
  end.

Definition isDenied (commentBody : string) : bool * option error :=
  isDeniedLoop deniedWords commentBody.

(** ** Go runtime: integers, slices and maps *)

(** Go's [int] on a 64-bit platform: two's complement wrap-around. *)
Definition wrap64 (z : Z) : Z := (z + 2 ^ 63) mod 2 ^ 64 - 2 ^ 63.
Definition int_add (a b : Z) : Z := wrap64 (a + b).
Definition int_sub (a b : Z) : Z := wrap64 (a - b).

(** [len(l)]. The runtime keeps the length of a slice within [int], so
    [len(l) - 1] on a non-empty slice does not wrap. *)
Definition len {A : Type} (l : list A) : Z := Z.of_nat (length l).

(** [l[i]]: a read out of range panics. *)
Definition index {A : Type} (l : list A) (i : Z) : go A :=
  match (if 0 <=? i then l !! Z.to_nat i else None) with
  | Some x => Ok x
  | None => Panic "index out of range"
  end.

(** [l[i] = x]: a write out of range panics. *)
Definition setIndex {A : Type} (l : list A) (i : Z) (x : A) : go (list A) :=
  if (0 <=? i) && (i <? len l) then Ok (<[Z.to_nat i := x]> l)
  else Panic "index out of range".

(** [l[:n]] for [n] up to the length of [l]: the source only ever shrinks
    a slice, so the capacity beyond the length is never consulted. *)
Definition sliceTo {A : Type} (l : list A) (n : Z) : go (list A) :=
  if (0 <=? n) && (n <=? len l) then Ok (take (Z.to_nat n) l)
  else Panic "slice bounds out of range".

(** A [map[string]bool]: [None] is the nil map, the zero value of a map
    variable declared with [var]. *)
Definition gomap : Type := option (gmap string bool).

(** [m[k] = v]: a write to the nil map panics. *)
Definition mapassign (m : gomap) (k : string) (v : bool) : go gomap :=
  match m with
  | None => Panic "assignment to entry in nil map"
  | Some g => Ok (Some (<[k := v]> g))
  end.

(** [m[k]]: a read of an absent key, or of the nil map, yields false. *)
Definition mapaccess (m : gomap) (k : string) : bool :=
  match m with
  | None => false
  | Some g => default false (g !! k)
  end.

(** *** The bracket pattern

    [re.FindStringSubmatch(s)] for the pattern of the source: an escaped
    opening bracket, a capturing group holding dot-star, an escaped
    closing bracket. The search returns the leftmost match, dot-star is
    greedy, and a dot matches any rune but a newline. The result is nil
    when nothing matches, and otherwise the matched text followed by the
    text of group 1. *)

(** The longest [g] such that [g] followed by a closing bracket is a prefix
    of [s] without a newline in [g]. *)
Fixpoint groupBeforeClose (s : string) : option string :=
  match s with
  | EmptyString => None
  | String c s' =>
      if Ascii.eqb c newline then None
      else match groupBeforeClose s' with
           | Some g => Some (String c g)
           | None => if Ascii.eqb c "]" then Some "" else None
           end
  end.

Fixpoint FindStringSubmatch (s : string) : list string :=
  match s with
  | EmptyString => []
  | String c s' =>
      if Ascii.eqb c "[" then
        match groupBeforeClose s' with
        | Some g => [String "[" (g +:+ "]"); g]
        | None => FindStringSubmatch s'
        end
      else FindStringSubmatch s'
  end.

(** The same pattern as a [regex], for the statement that
    [FindStringSubmatch] returns a match of it. *)
Definition bracketPattern : regex :=
  Cat (Class (Ascii.eqb "["))
      (Cat (Star (Class (fun a => negb (Ascii.eqb a newline)))) (Class (Ascii.eqb "]"))).

(** ** approval.go: the approval aggregator *)

(** Modelled from the spec: the type [approvalStatus] and its constants
    [approvalStatusPending], [approvalStatusApproved] and
    [approvalStatusDenied], declared in a file that is not part of the
    sources at hand; the spec gives the enumeration Pending, Approved,
    Denied. *)
Inductive approvalStatus : Type :=
  | approvalStatusPending
  | approvalStatusApproved
  | approvalStatusDenied.

Global Instance approvalStatus_eq_dec : EqDecision approvalStatus.
Proof. solve_decision. Defined.

(** A [*github.IssueComment], seen through the two getters the engine
    calls: [comment.User.GetLogin()] and [comment.GetBody()] (each yields
    the empty string for an absent field). *)
Record IssueComment : Type := mkComment {
  GetLogin : string;
  GetBody : string
}.

(** The three results of [approvalFromComments]. A nil slice and an empty
    slice of names are both the empty list. *)
Record result : Type := mkResult {
  status : approvalStatus;
  deploymentNames : list string;
  err : option error
}.

Global Instance result_eq_dec : EqDecision result.
Proof. solve_decision. Defined.

(** What one iteration of the loop over the comments does: go on with the
    next comment, or return from the function. *)
Inductive control : Type :=
  | Continue (remainingApprovers : list string)
  | Return (r : result).

Fixpoint approversIndexFrom (idx : Z) (approvers : list string) (name : string) : Z :=
  match approvers with
  | [] => -1
  | approver :: rest =>
      if String.eqb approver name then idx
      else approversIndexFrom (idx + 1) rest name
  end.

Definition approversIndex (approvers : list string) (name : string) : Z :=
  approversIndexFrom 0 approvers name.

(** [fmt.Errorf("errors.comment by not valid")]: the bracketed part of a
    comment does not match the pattern (the spec's
    MalformedDeploymentSyntax). *)
Definition errMalformedDeploymentSyntax : error := Errorf "errors.comment by not valid".

(** [fmt.Errorf("errors.deployment name is invalid")]: a name that is not
    configured (the spec's UnknownDeploymentName). *)
Definition errUnknownDeploymentName : error := Errorf "errors.deployment name is invalid".

Section Engine.

(** The value of [validDeploymentNamesMap] right after its declaration.
    The source declares it with [var validDeploymentNamesMap
    map[string]bool], which leaves it nil; see [approvalFromComments]
    below. *)
Variable declaredMap : gomap.

Variable approvers : list string.
Variable minimumApprovals : Z.
Variable multipleDeploymentNames : list string.

(** [for _, v := range multipleDeploymentNames { m[v] = true }] *)
Fixpoint fillValidNames (names : list string) (m : gomap) : go gomap :=
  match names with
  | [] => Ok m
  | v :: rest => m' ← mapassign m v true; fillValidNames rest m'
  end.

(** The loop over the names of a comment: the first unknown name returns
    the error, a known name is appended to [bodyDeploymentNames]. *)
Fixpoint collectNames (valid : gomap) (names : list string)
    (bodyDeploymentNames : list string) : list string + error :=
  match names with
  | [] => inl bodyDeploymentNames
  | v :: rest =>
      if negb (mapaccess valid v) then inr errUnknownDeploymentName
      else collectNames valid rest (bodyDeploymentNames ++ [v])
  end.

(** The block guarded by [strings.Contains(commentBody, "[") &&
    len(multipleDeploymentNames) != 0]: either the function returns, or
    the block ends with a new [commentBody] and the names of the
    comment. *)
Definition deploymentBlock (commentBody : string)
  : go (string * list string + result) :=
  let commentBodySplit := Split commentBody "[" in
  commentBody' ← index commentBodySplit 0;
  piece ← index commentBodySplit 1;
  let deploymentNamesRaw := "[" +:+ piece in
  let matches := FindStringSubmatch deploymentNamesRaw in
  if negb (len matches =? 2) then
    Ok (inr (mkResult approvalStatusPending [] (Some errMalformedDeploymentSyntax)))
  else
    validDeploymentNamesMap ← fillValidNames multipleDeploymentNames declaredMap;
    group ← index matches 1;
    let deploymentNames := Split group "," in
    match collectNames validDeploymentNamesMap deploymentNames [] with
    | inr e => Ok (inr (mkResult approvalStatusPending [] (Some e)))
    | inl bodyDeploymentNames => Ok (inl (commentBody', bodyDeploymentNames))
    end.

(** The body of [for _, comment := range comments]. The threshold
    [minimumApprovals] is the one after the adjustment made before the
    loop. *)
Definition loopBody (threshold : Z) (remainingApprovers : list string)
    (comment : IssueComment) : go control :=
  let commentUser := GetLogin comment in
  let approverIdx := approversIndex remainingApprovers commentUser in
  if approverIdx <? 0 then Ok (Continue remainingApprovers)
  else
    let commentBody := GetBody comment in
    parsed ← (if Contains commentBody "[" && negb (len multipleDeploymentNames =? 0)
              then deploymentBlock commentBody
              else Ok (inl (commentBody, [])));
    match parsed with
    | inr r => Ok (Return r)
    | inl (commentBody, bodyDeploymentNames) =>
        let '(isApprovalComment, e) := isApproved commentBody in
        match e with
        | Some e => Ok (Return (mkResult approvalStatusPending [] (Some e)))
        | None =>
            if isApprovalComment then
              if len remainingApprovers
                 =? int_add (int_sub (len approvers) threshold) 1
              then Ok (Return (mkResult approvalStatusApproved bodyDeploymentNames None))
              else
                lastApprover ← index remainingApprovers (len remainingApprovers - 1);
                swapped ← setIndex remainingApprovers approverIdx lastApprover;
                shrunk ← sliceTo swapped (len remainingApprovers - 1);
                Ok (Continue shrunk)
            else
              let '(isDenialComment, e) := isDenied commentBody in
              match e with
              | Some e => Ok (Return (mkResult approvalStatusPending [] (Some e)))
              | None =>
                  if isDenialComment
                  then Ok (Return (mkResult approvalStatusDenied [] None))
                  else Ok (Continue remainingApprovers)
              end
        end
    end.

(** The loop, from the state [remainingApprovers]; falling out of it
    returns Pending. *)
Fixpoint commentsLoop (threshold : Z) (remainingApprovers : list string)
    (comments : list IssueComment) : go result :=
  match comments with
  | [] => Ok (mkResult approvalStatusPending [] None)
  | comment :: rest =>
      c ← loopBody threshold remainingApprovers comment;
      match c with
      | Return r => Ok r
      | Continue remainingApprovers' => commentsLoop threshold remainingApprovers' rest
      end
  end.

(** The slice [remainingApprovers] when the loop has run through
    [comments] without returning or panicking; [None] otherwise. *)
Fixpoint remainingAfter (threshold : Z) (remainingApprovers : list string)
    (comments : list IssueComment) : option (list string) :=
  match comments with
  | [] => Some remainingApprovers
  | comment :: rest =>
      match loopBody threshold remainingApprovers comment with
      | Ok (Continue remainingApprovers') => remainingAfter threshold remainingApprovers' rest
      | _ => None
      end
  end.

Definition adjustedMinimum : Z :=
  if minimumApprovals =? 0 then len approvers else minimumApprovals.

Definition approvalFromCommentsWith (comments : list IssueComment) : go result :=
  let remainingApprovers := approvers in
  commentsLoop adjustedMinimum remainingApprovers comments.

End Engine.

(** [approvalFromComments] as the source has it: the map of valid names is
    declared and never made, so it is nil when it is first written. *)
Definition approvalFromComments (comments : list IssueComment)
    (approvers : list string) (minimumApprovals : Z)
    (multipleDeploymentNames : list string) : go result :=
  approvalFromCommentsWith None approvers minimumApprovals multipleDeploymentNames comments.

(** The function with [validDeploymentNamesMap] made before it is written
    ([make(map[string]bool)]): the program the spec describes. *)
Definition approvalFromCommentsRepaired (comments : list IssueComment)
    (approvers : list string) (minimumApprovals : Z)
    (multipleDeploymentNames : list string) : go result :=
  approvalFromCommentsWith (Some ∅) approvers minimumApprovals multipleDeploymentNames comments.

(** ** approval.go: the environment and the text of the issue *)

(** [strings.Join(elems, sep)] *)
Fixpoint Join (elems : list string) (sep : string) : string :=
  match elems with
  | [] => ""
  | e :: rest =>
      match rest with
      | [] => e
      | _ :: _ => e +:+ sep +:+ Join rest sep
      end
  end.

(** The verb [%d] of [fmt] on an [int]: the decimal digits, after a minus
    sign for a negative number. *)
Definition formatInt (z : Z) : string := NilZero.string_of_int (Z.to_int z).

(** The double quote character. *)
Definition dquote : string := String (ascii_of_N 34) EmptyString.

Section Environment.

(** [*github.Client] and [*github.Issue]: values of the GitHub library
    that the functions below only store. *)
Variable Client : Type.
Variable Issue : Type.

Record approvalEnvironment : Type := mkEnvironment {
  client : Client;
  repoFullName : string;
  repo : string;
  repoOwner : string;
  runID : Z;
  approvers : list string;
  minimumApprovals : Z;
  approvalIssue : option Issue;
  approvalIssueNumber : Z;
  mutlipleDeploymentNames : list string
}.

(** [newApprovalEnvironment]: the pointer to the new environment, or the
    error; the fields the literal leaves out have their zero value. *)
Definition newApprovalEnvironment (client : Client)
    (repoFullName repoOwner : string) (runID : Z) (approvers : list string)
    (minimumApprovals : Z) (mutlipleDeploymentNames : list string)
  : go (approvalEnvironment + error) :=
  let repoOwnerAndName := Split repoFullName "/" in
  if negb (len repoOwnerAndName =? 2) then
    Ok (inr (Errorf ("repo owner and name in unexpected format: " +:+ repoFullName)))
  else
    repo ← index repoOwnerAndName 1;
    Ok (inl {| client := client;
               repoFullName := repoFullName;
               repo := repo;
               repoOwner := repoOwner;
               runID := runID;
               approvers := approvers;
               minimumApprovals := minimumApprovals;
               approvalIssue := None;
               approvalIssueNumber := 0;
               mutlipleDeploymentNames := mutlipleDeploymentNames |}).

(** [runURL]: [fmt.Sprintf] with the verbs [%s] and [%d]. *)
Definition runURL (a : approvalEnvironment) : string :=
  "https://github.com/" +:+ repoFullName a +:+ "/actions/runs/" +:+ formatInt (runID a).

End Environment.

Arguments mkEnvironment {Client Issue}.
Arguments client {Client Issue}.
Arguments repoFullName {Client Issue}.
Arguments repo {Client Issue}.
Arguments repoOwner {Client Issue}.
Arguments runID {Client Issue}.
Arguments approvers {Client Issue}.
Arguments minimumApprovals {Client Issue}.
Arguments approvalIssue {Client Issue}.
Arguments approvalIssueNumber {Client Issue}.
Arguments mutlipleDeploymentNames {Client Issue}.
Arguments newApprovalEnvironment {Client Issue}.
Arguments runURL {Client Issue}.

(** The loop of [formatAcceptedWords] over the names, at index [i] of
    [n] names: the name, and a comma unless the name is the last. *)
Fixpoint appendNames (i n : Z) (names : list string) (deploymentNames : string)
  : string :=
  match names with
  | [] => deploymentNames
  | v :: rest =>
      let deploymentNames := deploymentNames +:+ v in
      let deploymentNames :=
        if negb (i =? n - 1) then deploymentNames +:+ "," else deploymentNames in
      appendNames (i + 1) n rest deploymentNames
  end.

(** The string [deploymentNames] of [formatAcceptedWords]: empty unless
    more than one name is configured. *)
Definition deploymentSuffix (multipleDeploymentNames : list string) : string :=
  if 1 <? len multipleDeploymentNames then
    appendNames 0 (len multipleDeploymentNames) multipleDeploymentNames ("" +:+ "[")
    +:+ "]"
  else "".

(** The loop of [formatAcceptedWords] over the words: each word and the
    suffix between double quotes, appended to [quotedWords]. *)
Fixpoint quoteWords (words : list string) (deploymentNames : string)
    (quotedWords : list string) : list string :=
  match words with
  | [] => quotedWords
  | word :: rest =>
      quoteWords rest deploymentNames
        (quotedWords ++ [dquote +:+ word +:+ deploymentNames +:+ dquote])
  end.

Definition formatAcceptedWords (words multipleDeploymentNames : list string) : string :=
  Join (quoteWords words (deploymentSuffix multipleDeploymentNames) []) ", ".

(** ** The classifier as the spec words it *)

(** [equalFold w s]: the text [s] is the word [w] up to case, rune by
    rune, under the case folding of the flag [(?i)]. *)
Fixpoint equalFold (w s : string) : Prop :=
  match w with
  | EmptyString => s = ""
  | String a w' => ∃ v s', v ∈ foldOrbit a ∧ s = v +:+ s' ∧ equalFold w' s'
  end.

Fixpoint allChars (p : ascii → bool) (s : string) : bool :=
  match s with
  | EmptyString => true
  | String a s' => p a && allChars p s'
  end.

Fixpoint newlines (n : nat) : string :=
  match n with
  | O => ""
  | S n' => String newline (newlines n')
  end.

(** An approval word in any case, then any number of [.] and [!], then any
    number of newlines, and nothing else. *)
Definition approvalShape (body : string) : Prop :=
  ∃ w head punct n,
    w ∈ approvedWords ∧ equalFold w head ∧ allChars dotOrBang punct = true ∧
    body = head +:+ punct +:+ newlines n.

(** A denial word in any case, then at most one [.] or [!], and nothing
    else. *)
Definition denialShape (body : string) : Prop :=
  ∃ w head punct,
    w ∈ deniedWords ∧ equalFold w head ∧ (punct = "" ∨ punct = "." ∨ punct = "!") ∧
    body = head +:+ punct.

(** Some part of [s] is in the language of [r]: what an unanchored search
    looks for. *)
Definition matchesWithin (r : regex) (s : string) : Prop :=
  ∃ before w after, s = before +:+ w +:+ after ∧ lang r w.

(** All 256 bytes. *)
Definition allAscii : list ascii := ascii_of_nat <$> seq 0 256.

(** [endsIn ok r]: every non-empty text of [r] ends in a byte accepted by
    [ok]; a syntactic check. *)
Fixpoint endsIn (ok : ascii → bool) (r : regex) : bool :=
  match r with
  | Void => true
  | Eps => true
  | Class p => forallb (fun a => implb (p a) (ok a)) allAscii
  | Alt r1 r2 => endsIn ok r1 && endsIn ok r2
  | Cat r1 r2 => endsIn ok r2 && (if nullable r2 then endsIn ok r1 else true)
  | Star r' => endsIn ok r'
  end.

(** Blank characters other than the newline: space, tab, carriage return. *)
Definition isBlank (a : ascii) : bool :=
  Ascii.eqb a " " || Ascii.eqb a (ascii_of_N 9) || Ascii.eqb a (ascii_of_N 13).

(** [charsIn ok r]: every byte of every text of [r] is accepted by [ok]; a
    syntactic check. *)
Fixpoint charsIn (ok : ascii → bool) (r : regex) : bool :=
  match r with
  | Void => true
  | Eps => true
  | Class p => forallb (fun a => implb (p a) (ok a)) allAscii
  | Alt r1 r2 => charsIn ok r1 && charsIn ok r2
  | Cat r1 r2 => charsIn ok r1 && charsIn ok r2
  | Star r' => charsIn ok r'
  end.

(** [startsIn ok r]: every non-empty text of [r] starts with a byte
    accepted by [ok]; a syntactic check. *)
Fixpoint startsIn (ok : ascii → bool) (r : regex) : bool :=
  match r with
  | Void => true
  | Eps => true
  | Class p => forallb (fun a => implb (p a) (ok a)) allAscii
  | Alt r1 r2 => startsIn ok r1 && startsIn ok r2
  | Cat r1 r2 => startsIn ok r1 && (if nullable r1 then startsIn ok r2 else true)
  | Star r' => startsIn ok r'
  end.

(** ** The aggregator in the terms of the spec *)

(** Deployment-name extraction (the spec's [extractDeploymentNames]): the
    guarded block of the loop body together with its guard. *)
Definition extractDeploymentNames (declaredMap : gomap)
    (multipleDeploymentNames : list string) (commentBody : string)
  : go (string * list string + result) :=
  if Contains commentBody "[" && negb (len multipleDeploymentNames =? 0)
  then deploymentBlock declaredMap multipleDeploymentNames commentBody
  else Ok (inl (commentBody, [])).

(** How the loop body classifies the comment of an approver that is still
    in [remainingApprovers]. *)
Inductive verdict : Type :=
  | Approval (bodyDeploymentNames : list string)
  | Denial
  | Neither
  | Rejected (r : result).

Definition classify (declaredMap : gomap) (multipleDeploymentNames : list string)
    (commentBody : string) : go verdict :=
  parsed ← extractDeploymentNames declaredMap multipleDeploymentNames commentBody;
  Ok (match parsed with
      | inr r => Rejected r
      | inl (commentBody', bodyDeploymentNames) =>
          if fst (isApproved commentBody') then Approval bodyDeploymentNames
          else if fst (isDenied commentBody') then Denial
          else Neither
      end).

(** Removal by swapping with the last element and dropping the last
    element. *)
Definition swapRemove (l : list string) (i : nat) : list string :=
  match last l with
  | Some x => take (length l - 1) (<[i := x]> l)
  | None => l
  end.

(** The value the length of [remainingApprovers] is compared with when an
    approval is met. *)
Definition quorumLength (approvers : list string) (threshold : Z) : Z :=
  int_add (int_sub (len approvers) threshold) 1.

(** The text the bracket pattern is searched in: an opening bracket
    followed by the second piece of the comment body split at opening
    brackets. *)
Definition deploymentNamesRaw (commentBody : string) : string :=
  "[" +:+ nth 1 (Split commentBody "[") "".

(** The slice [remainingApprovers] of [approvalFromComments] once its loop
    has run through [comments]; [None] when the call has returned or
    panicked before the end of [comments]. *)
Definition remainingApproversAfter (comments : list IssueComment)
    (approvers : list string) (minimumApprovals : Z)
    (multipleDeploymentNames : list string) : option (list string) :=
  remainingAfter None approvers multipleDeploymentNames
    (adjustedMinimum approvers minimumApprovals) approvers comments.

(** ** The premises of the quorum and of the exhausted loop *)

(** The comment is an approval to the classifier. *)
Definition isApprovalComment (declaredMap : gomap)
    (multipleDeploymentNames : list string) (d : IssueComment) : bool :=
  match classify declaredMap multipleDeploymentNames (GetBody d) with
  | Ok (Approval _) => true
  | _ => false
  end.

(** The authors of the approvals that [members] wrote in [comments], in
    the order of the comments. *)
Definition approvalAuthors (declaredMap : gomap)
    (multipleDeploymentNames members : list string)
    (comments : list IssueComment) : list string :=
  GetLogin <$>
    filter (fun d => GetLogin d ∈ members ∧
                     isApprovalComment declaredMap multipleDeploymentNames d = true)
           comments.

(** The premises of the quorum: among the comments [pre], the approvers
    wrote [minimumApprovals - 1] approvals, each by a different author; the
    comment [c] is an approval, with the names [names], by one more
    approver; and every comment of [pre] written by an approver who has
    not approved before it is an approval or neither an approval nor a
    denial (no denial, no extraction error). *)
Definition quorumPremises (declaredMap : gomap) (approvers : list string)
    (minimumApprovals : Z) (multipleDeploymentNames : list string)
    (pre : list IssueComment) (c : IssueComment) (names : list string) : Prop :=
  NoDup approvers ∧
  1 ≤ minimumApprovals ≤ len approvers ∧
  len approvers < 2 ^ 63 ∧
  NoDup (approvalAuthors declaredMap multipleDeploymentNames approvers pre) ∧
  len (approvalAuthors declaredMap multipleDeploymentNames approvers pre)
    = minimumApprovals - 1 ∧
  (∀ (j : nat) (d : IssueComment),
     pre !! j = Some d →
     GetLogin d ∈ approvers →
     GetLogin d ∉ approvalAuthors declaredMap multipleDeploymentNames approvers
                    (take j pre) →
     classify declaredMap multipleDeploymentNames (GetBody d) = Ok Neither ∨
     ∃ ns, classify declaredMap multipleDeploymentNames (GetBody d) = Ok (Approval ns)) ∧
  GetLogin c ∈ approvers ∧
  (GetLogin c ∉ approvalAuthors declaredMap multipleDeploymentNames approvers pre) ∧
  classify declaredMap multipleDeploymentNames (GetBody c) = Ok (Approval names).

(** No comment makes the loop return: whenever the loop reaches a comment,
    the iteration does not end in a return statement. *)
Definition noEarlyReturn (declaredMap : gomap) (approvers : list string)
    (minimumApprovals : Z) (multipleDeploymentNames : list string)
    (comments : list IssueComment) : Prop :=
  ∀ (pre post : list IssueComment) (c : IssueComment) (remaining : list string) (r : result),
    comments = pre ++ c :: post →
    remainingAfter declaredMap approvers multipleDeploymentNames
      (adjustedMinimum approvers minimumApprovals) approvers pre = Some remaining →
    loopBody declaredMap approvers multipleDeploymentNames
      (adjustedMinimum approvers minimumApprovals) remaining c ≠ Ok (Return r).

(** ** The earlier revision of approval.go *)

(** The revision of the file without deployment names:
    [approvalFromComments(comments, approvers, minimumApprovals)] returns a
    status and an error, and its loop body has no block for bracketed
    names. *)
Module Legacy.

Inductive control : Type :=
  | Continue (remainingApprovers : list string)
  | Return (st : approvalStatus) (e : option error).

Definition loopBody (approvers : list string) (threshold : Z)
    (remainingApprovers : list string) (comment : IssueComment) : go control :=
  let commentUser := GetLogin comment in
  let approverIdx := approversIndex remainingApprovers commentUser in
  if approverIdx <? 0 then Ok (Continue remainingApprovers)
  else
    let commentBody := GetBody comment in
    let '(isApprovalComment, e) := isApproved commentBody in
    match e with
    | Some e => Ok (Return approvalStatusPending (Some e))
    | None =>
        if isApprovalComment then
          if len remainingApprovers
             =? int_add (int_sub (len approvers) threshold) 1
          then Ok (Return approvalStatusApproved None)
          else
            lastApprover ← index remainingApprovers (len remainingApprovers - 1);
            swapped ← setIndex remainingApprovers approverIdx lastApprover;
            shrunk ← sliceTo swapped (len remainingApprovers - 1);
            Ok (Continue shrunk)
        else
          let '(isDenialComment, e) := isDenied commentBody in
          match e with
          | Some e => Ok (Return approvalStatusPending (Some e))
          | None =>
              if isDenialComment
              then Ok (Return approvalStatusDenied None)
              else Ok (Continue remainingApprovers)
          end
    end.

Fixpoint commentsLoop (approvers : list string) (threshold : Z)
    (remainingApprovers : list string) (comments : list IssueComment)
  : go (approvalStatus * option error) :=
  match comments with
  | [] => Ok (approvalStatusPending, None)
  | comment :: rest =>
      c ← loopBody approvers threshold remainingApprovers comment;
      match c with
      | Return st e => Ok (st, e)
      | Continue remainingApprovers' =>
          commentsLoop approvers threshold remainingApprovers' rest
      end
  end.

Definition approvalFromComments (comments : list IssueComment)
    (approvers : list string) (minimumApprovals : Z)
  : go (approvalStatus * option error) :=
  let remainingApprovers := approvers in
  commentsLoop approvers (adjustedMinimum approvers minimumApprovals)
    remainingApprovers comments.

End Legacy.

(** The status and the error of a result. *)
Definition statusAndError (r : go result) : go (approvalStatus * option error) :=
  match r with
  | Ok r => Ok (status r, err r)
  | Panic msg => Panic msg
  end.

(** * Properties *)

(** ** Strings *)

Lemma append_nil_l (s : string) : "" +:+ s = s.
Proof. reflexivity. Qed.

Lemma append_cons (a : ascii) (s t : string) : String a s +:+ t = String a (s +:+ t).
Proof. reflexivity. Qed.

Lemma append_nil_r (s : string) : s +:+ "" = s.
Proof. induction s as [|a s IH]; [done | by rewrite append_cons, IH]. Qed.

Lemma append_assoc (s1 s2 s3 : string) : (s1 +:+ s2) +:+ s3 = s1 +:+ (s2 +:+ s3).
Proof. induction s1 as [|a s1 IH]; [done | by rewrite !append_cons, IH]. Qed.

Lemma append_eq_nil (s1 s2 : string) : s1 +:+ s2 = "" → s1 = "" ∧ s2 = "".
Proof. destruct s1; [done | rewrite append_cons; discriminate]. Qed.

Lemma append_eq_cons (s1 s2 : string) (a : ascii) (s : string) :
  s1 +:+ s2 = String a s →
  (s1 = "" ∧ s2 = String a s) ∨ (∃ s1', s1 = String a s1' ∧ s = s1' +:+ s2).
Proof.
  destruct s1 as [|b s1]; [by left |].
  rewrite append_cons. intros [= -> <-]. right. by eexists.
Qed.

(** ** The matcher decides the language *)

Lemma lang_void_inv (s : string) : lang Void s → False.
Proof. inversion 1. Qed.

Lemma lang_eps_inv (s : string) : lang Eps s → s = "".
Proof. by inversion 1. Qed.

Lemma lang_class_inv (p : ascii → bool) (s : string) :
  lang (Class p) s → ∃ a, s = String a "" ∧ p a = true.
Proof. inversion 1; subst; eauto. Qed.

Lemma lang_alt_inv (r1 r2 : regex) (s : string) :
  lang (Alt r1 r2) s → lang r1 s ∨ lang r2 s.
Proof. inversion 1; subst; eauto. Qed.

Lemma lang_cat_inv (r1 r2 : regex) (s : string) :
  lang (Cat r1 r2) s → ∃ s1 s2, s = s1 +:+ s2 ∧ lang r1 s1 ∧ lang r2 s2.
Proof. inversion 1; subst; eauto. Qed.

Lemma lang_star_inv (r : regex) (s : string) :
  lang (Star r) s →
  s = "" ∨ ∃ s1 s2, s = s1 +:+ s2 ∧ lang r s1 ∧ lang (Star r) s2.
Proof. inversion 1; subst; eauto 6. Qed.

Lemma nullable_lang (r : regex) : nullable r = true ↔ lang r "".
Proof.
  induction r as [| |p|r1 IH1 r2 IH2|r1 IH1 r2 IH2|r IH]; cbn.
  - split; [discriminate | intros []%lang_void_inv].
  - split; [constructor | done].
  - split; [discriminate | intros (a & [=] & _)%lang_class_inv].
  - rewrite orb_true_iff, IH1, IH2. split.
    + intros [H|H]; [by apply lang_alt_l | by apply lang_alt_r].
    + apply lang_alt_inv.
  - rewrite andb_true_iff, IH1, IH2. split.
    + intros [H1 H2]. by apply (lang_cat r1 r2 "" "").
    + intros (s1 & s2 & Heq & H1 & H2)%lang_cat_inv.
      symmetry in Heq. apply append_eq_nil in Heq as [-> ->]. done.
  - split; [constructor | done].
Qed.

Lemma lang_star_cons (r : regex) (a : ascii) (s : string) :
  lang (Star r) (String a s) →
  ∃ s1 s2, s = s1 +:+ s2 ∧ lang r (String a s1) ∧ lang (Star r) s2.
Proof.
  intros H. remember (Star r) as r' eqn:Hr. remember (String a s) as t eqn:Ht.
  revert Hr Ht.
  induction H as [| | | | | |r0 s1 s2 H1 _ H2 IH2]; try discriminate.
  intros [= ->] Heq.
  apply append_eq_cons in Heq as [[-> ->]|(s1' & -> & ->)].
  - by apply IH2.
  - by exists s1', s2.
Qed.

Lemma deriv_lang (r : regex) (a : ascii) (s : string) :
  lang (deriv a r) s ↔ lang r (String a s).
Proof.
  revert s. induction r as [| |p|r1 IH1 r2 IH2|r1 IH1 r2 IH2|r IH]; intros s; cbn.
  - split; intros []%lang_void_inv.
  - split; [intros []%lang_void_inv | intros [=]%lang_eps_inv].
  - destruct (p a) eqn:Hp; split.
    + intros ->%lang_eps_inv. by constructor.
    + intros (b & [= <- ->] & _)%lang_class_inv. constructor.
    + intros []%lang_void_inv.
    + intros (b & [= <- ->] & Hb)%lang_class_inv. congruence.
  - split.
    + intros [H|H]%lang_alt_inv; [apply lang_alt_l, IH1 | apply lang_alt_r, IH2]; done.
    + intros [H|H]%lang_alt_inv; [apply lang_alt_l, IH1 | apply lang_alt_r, IH2]; done.
  - assert (Hcat : ∀ t, lang (Cat (deriv a r1) r2) t → lang (Cat r1 r2) (String a t)).
    { intros t (s1 & s2 & -> & H1 & H2)%lang_cat_inv.
      apply IH1 in H1. by apply (lang_cat r1 r2 (String a s1) s2). }
    assert (Hinv : lang (Cat r1 r2) (String a s) →
                   lang (Cat (deriv a r1) r2) s ∨ (lang r1 "" ∧ lang r2 (String a s))).
    { intros (s1 & s2 & Heq & H1 & H2)%lang_cat_inv. symmetry in Heq.
      apply append_eq_cons in Heq as [[-> ->]|(s1' & -> & ->)]; [by right |].
      left. apply lang_cat; [by apply IH1 | done]. }
    destruct (nullable r1) eqn:Hn; split.
    + intros [H|H]%lang_alt_inv; [by apply Hcat |].
      apply (lang_cat r1 r2 "" (String a s)); [by apply nullable_lang | by apply IH2].
    + intros H. destruct (Hinv H) as [H'|[_ H']]; [by apply lang_alt_l |].
      apply lang_alt_r. by apply IH2.
    + apply Hcat.
    + intros H. destruct (Hinv H) as [H'|[H' _]]; [done |].
      apply nullable_lang in H'. congruence.
  - split.
    + intros (s1 & s2 & -> & H1 & H2)%lang_cat_inv.
      apply IH in H1. by apply (lang_star_more r (String a s1) s2).
    + intros H. apply lang_star_cons in H as (s1 & s2 & -> & H1 & H2).
      apply lang_cat; [by apply IH | done].
Qed.

Lemma fullMatch_lang (r : regex) (s : string) : fullMatch r s = true ↔ lang r s.
Proof.
  revert r. induction s as [|a s IH]; intros r; cbn.
  - apply nullable_lang.
  - rewrite IH. apply deriv_lang.
Qed.

(** ** The patterns of the classifier *)

Lemma lang_literal (v s : string) : lang (literal v) s ↔ s = v.
Proof.
  revert s. induction v as [|a v IH]; intros s; cbn.
  - split; [apply lang_eps_inv | intros ->; constructor].
  - split.
    + intros (s1 & s2 & -> & (b & -> & Hb)%lang_class_inv & H2)%lang_cat_inv.
      apply Ascii.eqb_eq in Hb as <-. apply IH in H2 as ->. done.
    + intros ->. apply (lang_cat _ _ (String a "") v); [|by apply IH].
      constructor. apply Ascii.eqb_refl.
Qed.

Lemma lang_anyOf (rs : list regex) (s : string) :
  lang (anyOf rs) s ↔ ∃ r, r ∈ rs ∧ lang r s.
Proof.
  induction rs as [|r rs IH]; cbn.
  - split; [intros []%lang_void_inv | intros (r & Hr & _); by apply elem_of_nil in Hr].
  - split.
    + intros [H|H]%lang_alt_inv; [exists r; split; [left | done] |].
      apply IH in H as (r' & Hr' & H). exists r'. split; [by right | done].
    + intros (r' & Hr' & H). apply elem_of_cons in Hr' as [->|Hr'].
      * by apply lang_alt_l.
      * apply lang_alt_r, IH. eauto.
Qed.

Lemma lang_foldLiteral (w s : string) : lang (foldLiteral w) s ↔ equalFold w s.
Proof.
  revert s. induction w as [|a w IH]; intros s; cbn.
  - split; [apply lang_eps_inv | intros ->; constructor].
  - split.
    + intros (s1 & s2 & -> & H1 & H2)%lang_cat_inv.
      apply lang_anyOf in H1 as (r & Hr & H1).
      apply list_elem_of_fmap in Hr as (v & -> & Hv).
      apply lang_literal in H1 as ->. exists v, s2. by rewrite <- IH.
    + intros (v & s' & Hv & -> & H). apply lang_cat; [|by apply IH].
      apply lang_anyOf. exists (literal v). split; [|by apply lang_literal].
      apply list_elem_of_fmap. eauto.
Qed.

Lemma lang_star_class (p : ascii → bool) (s : string) :
  lang (Star (Class p)) s ↔ allChars p s = true.
Proof.
  induction s as [|a s IH]; cbn.
  - split; [done | constructor].
  - rewrite andb_true_iff, <- IH. split.
    + intros (s1 & s2 & -> & (b & [= <- ->] & Hb)%lang_class_inv & H2)%lang_star_cons.
      done.
    + intros [Ha H]. apply (lang_star_more _ (String a "") s); [by constructor | done].
Qed.

Lemma allChars_cons (p : ascii → bool) (a : ascii) (s : string) :
  allChars p (String a s) = p a && allChars p s.
Proof. reflexivity. Qed.

Lemma allChars_newlines (s : string) :
  allChars (Ascii.eqb newline) s = true ↔ ∃ n, s = newlines n.
Proof.
  induction s as [|a s IH].
  - split; [by exists O | done].
  - rewrite allChars_cons, andb_true_iff, IH. split.
    + intros [<-%Ascii.eqb_eq [n ->]]. by exists (S n).
    + intros [[|n] Hn]; [discriminate |]. injection Hn as -> ->.
      split; [apply Ascii.eqb_refl | eauto].
Qed.

Lemma lang_approvedPattern (w body : string) :
  lang (approvedPattern w) body ↔
  ∃ head punct n, equalFold w head ∧ allChars dotOrBang punct = true ∧
                  body = head +:+ punct +:+ newlines n.
Proof.
  unfold approvedPattern. split.
  - intros (head & s2 & -> & Hh & (punct & s3 & -> & Hp & Hn)%lang_cat_inv)%lang_cat_inv.
    apply lang_foldLiteral in Hh. apply lang_star_class in Hp.
    apply lang_star_class, allChars_newlines in Hn as [n ->]. eauto 6.
  - intros (head & punct & n & Hh & Hp & ->).
    apply lang_cat; [by apply lang_foldLiteral |].
    apply lang_cat; [by apply lang_star_class |].
    apply lang_star_class, allChars_newlines. eauto.
Qed.

Lemma lang_deniedPattern (w body : string) :
  lang (deniedPattern w) body ↔
  ∃ head punct, equalFold w head ∧ (punct = "" ∨ punct = "." ∨ punct = "!") ∧
                body = head +:+ punct.
Proof.
  unfold deniedPattern. split.
  - intros (head & punct & -> & Hh & Hp)%lang_cat_inv.
    apply lang_foldLiteral in Hh. exists head, punct. split_and!; [done | | done].
    apply lang_alt_inv in Hp as [(a & -> & Ha)%lang_class_inv | ->%lang_eps_inv];
      [|by left].
    unfold dotOrBang in Ha. apply orb_true_iff in Ha as [Ha|Ha];
      apply Ascii.eqb_eq in Ha as ->; eauto.
  - intros (head & punct & Hh & Hp & ->).
    apply lang_cat; [by apply lang_foldLiteral |].
    destruct Hp as [->|[->| ->]];
      [apply lang_alt_r; constructor | apply lang_alt_l; by constructor ..].
Qed.

Lemma isApprovedLoop_err (words : list string) (body : string) :
  snd (isApprovedLoop words body) = None.
Proof.
  induction words as [|w words IH]; cbn; [done |].
  by destruct (fullMatch (approvedPattern w) body).
Qed.

Lemma isDeniedLoop_err (words : list string) (body : string) :
  snd (isDeniedLoop words body) = None.
Proof.
  induction words as [|w words IH]; cbn; [done |].
  by destruct (fullMatch (deniedPattern w) body).
Qed.

Lemma isApprovedLoop_true (words : list string) (body : string) :
  fst (isApprovedLoop words body) = true ↔
  ∃ w, w ∈ words ∧ lang (approvedPattern w) body.
Proof.
  induction words as [|w words IH]; cbn.
  - split; [done | intros (w & Hw & _); by apply elem_of_nil in Hw].
  - destruct (fullMatch (approvedPattern w) body) eqn:Hm; cbn.
    + split; [|done]. intros _. exists w. split; [left | by apply fullMatch_lang].
    + rewrite IH. split.
      * intros (w' & Hw' & H). exists w'. split; [by right | done].
      * intros (w' & [->|Hw']%elem_of_cons & H); [|by eauto].
        apply fullMatch_lang in H. congruence.
Qed.

Lemma isDeniedLoop_true (words : list string) (body : string) :
  fst (isDeniedLoop words body) = true ↔
  ∃ w, w ∈ words ∧ lang (deniedPattern w) body.
Proof.
  induction words as [|w words IH]; cbn.
  - split; [done | intros (w & Hw & _); by apply elem_of_nil in Hw].
  - destruct (fullMatch (deniedPattern w) body) eqn:Hm; cbn.
    + split; [|done]. intros _. exists w. split; [left | by apply fullMatch_lang].
    + rewrite IH. split.
      * intros (w' & Hw' & H). exists w'. split; [by right | done].
      * intros (w' & [->|Hw']%elem_of_cons & H); [|by eauto].
        apply fullMatch_lang in H. congruence.
Qed.

Lemma isApproved_shape (body : string) :
  fst (isApproved body) = true ↔ approvalShape body.
Proof.
  unfold isApproved, approvalShape. rewrite isApprovedLoop_true. split.
  - intros (w & Hw & (head & punct & n & H)%lang_approvedPattern).
    exists w, head, punct, n. tauto.
  - intros (w & head & punct & n & Hw & H). exists w. split; [done |].
    apply lang_approvedPattern. eauto.
Qed.

Lemma isDenied_shape (body : string) :
  fst (isDenied body) = true ↔ denialShape body.
Proof.
  unfold isDenied, denialShape. rewrite isDeniedLoop_true. split.
  - intros (w & Hw & (head & punct & H)%lang_deniedPattern).
    exists w, head, punct. tauto.
  - intros (w & head & punct & Hw & H). exists w. split; [done |].
    apply lang_deniedPattern. eauto.
Qed.

(** ** The last byte of a match *)

Lemma elem_of_allAscii (a : ascii) : a ∈ allAscii.
Proof.
  assert (H : existsb (Ascii.eqb a) allAscii = true)
    by (destruct a as [[] [] [] [] [] [] [] []]; vm_compute; reflexivity).
  apply existsb_exists in H as (b & Hb & ->%Ascii.eqb_eq).
  by apply list_elem_of_In.
Qed.

Local Opaque allAscii.

Lemma append_snoc_inj (s1 s2 : string) (a b : ascii) :
  s1 +:+ String a "" = s2 +:+ String b "" → a = b.
Proof.
  revert s2. induction s1 as [|c s1 IH]; intros [|d s2];
    rewrite ?append_cons, ?append_nil_l.
  - by intros [= ->].
  - intros [= -> H]. destruct s2; discriminate.
  - intros [= -> H]. destruct s1; discriminate.
  - intros [= -> H]. by apply IH in H.
Qed.

Lemma endsIn_lang (ok : ascii → bool) (r : regex) (s : string) :
  lang r s → endsIn ok r = true →
  s = "" ∨ ∃ s' a, s = s' +:+ String a "" ∧ ok a = true.
Proof.
  induction 1 as [|p a Hp|r1 r2 s _ IH|r1 r2 s _ IH
                  |r1 r2 s1 s2 _ IH1 H2 IH2| |r s1 s2 _ IH1 _ IH2]; cbn.
  - by left.
  - intros Hall. right. exists "", a. split; [done |].
    rewrite forallb_forall in Hall.
    specialize (Hall a (proj1 (list_elem_of_In _ _) (elem_of_allAscii a))).
    by rewrite Hp in Hall.
  - intros [H1 _]%andb_true_iff. auto.
  - intros [_ H2]%andb_true_iff. auto.
  - intros [He2 He1]%andb_true_iff.
    destruct (IH2 He2) as [->|(s' & a & -> & Ha)].
    + rewrite append_nil_r. apply IH1.
      apply nullable_lang in H2. by rewrite H2 in He1.
    + right. exists (s1 +:+ s'), a. by rewrite append_assoc.
  - by left.
  - intros He. destruct (IH2 He) as [->|(s' & a & -> & Ha)].
    + rewrite append_nil_r. auto.
    + right. exists (s1 +:+ s'), a. by rewrite append_assoc.
Qed.

Lemma fullMatch_trailing (ok : ascii → bool) (r : regex) (s : string) (c : ascii) :
  endsIn ok r = true → ok c = false → fullMatch r (s +:+ String c "") = false.
Proof.
  intros He Hc. apply not_true_is_false. intros H%fullMatch_lang.
  destruct (endsIn_lang ok _ _ H He) as [Heq|(s' & a & Heq & Ha)].
  - apply append_eq_nil in Heq as [_ [=]].
  - apply append_snoc_inj in Heq as ->. congruence.
Qed.

Lemma isApproved_trailing_blank (body : string) (c : ascii) :
  isBlank c = true → fst (isApproved (body +:+ String c "")) = false.
Proof.
  intros Hc. unfold isApproved, approvedWords, isApprovedLoop, MatchString.
  rewrite !(fullMatch_trailing (fun a => negb (isBlank a)));
    try (by rewrite Hc); done.
Qed.

Lemma isDenied_trailing_blank (body : string) (c : ascii) :
  isBlank c = true ∨ c = newline → fst (isDenied (body +:+ String c "")) = false.
Proof.
  intros Hc. unfold isDenied, deniedWords, isDeniedLoop, MatchString.
  rewrite !(fullMatch_trailing (fun a => negb (isBlank a || Ascii.eqb a newline)));
    try done.
  all: destruct Hc as [->| ->]; [done | by rewrite orb_true_r].
Qed.

(** ** No opening bracket in a vote word *)

Lemma charsIn_lang (ok : ascii → bool) (r : regex) (s : string) :
  lang r s → charsIn ok r = true → allChars ok s = true.
Proof.
  assert (Happ : ∀ s1 s2, allChars ok s1 = true → allChars ok s2 = true →
                          allChars ok (s1 +:+ s2) = true).
  { intros s1 s2 H1 H2. induction s1 as [|a s1 IH]; [done |].
    rewrite append_cons, allChars_cons in *.
    apply andb_true_iff in H1 as [Ha H1]. rewrite Ha. by apply IH. }
  induction 1 as [|p a Hp|r1 r2 s _ IH|r1 r2 s _ IH
                  |r1 r2 s1 s2 _ IH1 _ IH2| |r s1 s2 _ IH1 _ IH2]; cbn.
  - done.
  - intros Hall. rewrite forallb_forall in Hall.
    specialize (Hall a (proj1 (list_elem_of_In _ _) (elem_of_allAscii a))).
    rewrite Hp in Hall. cbn in Hall. by rewrite Hall.
  - intros [H1 _]%andb_true_iff. auto.
  - intros [_ H2]%andb_true_iff. auto.
  - intros [H1 H2]%andb_true_iff. auto.
  - done.
  - intros He. auto.
Qed.

Lemma allChars_not_Contains (s : string) (c : ascii) :
  allChars (fun a => negb (Ascii.eqb a c)) s = true → Contains s c = false.
Proof.
  induction s as [|a s IH]; [done |].
  rewrite allChars_cons. intros [Ha Hs]%andb_true_iff. cbn.
  apply negb_true_iff in Ha. rewrite Ha. auto.
Qed.

Lemma isApproved_no_bracket (body : string) :
  fst (isApproved body) = true → Contains body "[" = false.
Proof.
  intros (w & Hw & H)%isApprovedLoop_true. apply allChars_not_Contains.
  apply (charsIn_lang _ _ _ H).
  unfold approvedWords in Hw. set_unfold.
  destruct Hw as [->|[->|[->|[->|[]]]]]; vm_compute; reflexivity.
Qed.

Lemma isDenied_no_bracket (body : string) :
  fst (isDenied body) = true → Contains body "[" = false.
Proof.
  intros (w & Hw & H)%isDeniedLoop_true. apply allChars_not_Contains.
  apply (charsIn_lang _ _ _ H).
  unfold deniedWords in Hw. set_unfold.
  destruct Hw as [->|[->|[->|[]]]]; vm_compute; reflexivity.
Qed.

Lemma startsIn_lang (ok : ascii → bool) (r : regex) (s : string) :
  lang r s → startsIn ok r = true →
  s = "" ∨ ∃ a s', s = String a s' ∧ ok a = true.
Proof.
  induction 1 as [|p a Hp|r1 r2 s _ IH|r1 r2 s _ IH
                  |r1 r2 s1 s2 H1 IH1 _ IH2| |r s1 s2 _ IH1 _ IH2]; cbn.
  - by left.
  - intros Hall. right. exists a, "". split; [done |].
    rewrite forallb_forall in Hall.
    specialize (Hall a (proj1 (list_elem_of_In _ _) (elem_of_allAscii a))).
    by rewrite Hp in Hall.
  - intros [H1 _]%andb_true_iff. auto.
  - intros [_ H2]%andb_true_iff. auto.
  - intros [He1 He2]%andb_true_iff.
    destruct (IH1 He1) as [->|(a & s' & -> & Ha)].
    + apply IH2. apply nullable_lang in H1. by rewrite H1 in He2.
    + right. exists a, (s' +:+ s2). by rewrite append_cons.
  - by left.
  - intros He. destruct (IH1 He) as [->|(a & s' & -> & Ha)].
    + auto.
    + right. exists a, (s' +:+ s2). by rewrite append_cons.
Qed.

(** The two vocabularies are disjoint: no body is both an approval and a
    denial. *)
Lemma isDenied_not_isApproved (body : string) :
  fst (isDenied body) = true → fst (isApproved body) = false.
Proof.
  intros (wd & Hwd & Hd)%isDeniedLoop_true. apply not_true_is_false.
  intros (wa & Hwa & Ha)%isApprovedLoop_true.
  set (okd := fun a => Ascii.eqb (toLower a) "d" || Ascii.eqb (toLower a) "n").
  assert (Hsd : startsIn okd (deniedPattern wd) = true).
  { unfold deniedWords in Hwd. set_unfold.
    destruct Hwd as [->|[->|[->|[]]]]; vm_compute; reflexivity. }
  assert (Hsa : startsIn (fun a => negb (okd a)) (approvedPattern wa) = true).
  { unfold approvedWords in Hwa. set_unfold.
    destruct Hwa as [->|[->|[->|[->|[]]]]]; vm_compute; reflexivity. }
  assert (Hne : body ≠ "").
  { intros ->. apply fullMatch_lang in Hd.
    unfold deniedWords in Hwd. set_unfold.
    destruct Hwd as [->|[->|[->|[]]]]; vm_compute in Hd; discriminate. }
  destruct (startsIn_lang _ _ _ Hd Hsd) as [?|(a & s' & -> & Hokd)]; [done |].
  destruct (startsIn_lang _ _ _ Ha Hsa) as [?|(a' & s'' & [= <- <-] & Hoka)]; [done |].
  rewrite Hokd in Hoka. discriminate.
Qed.

Lemma fullMatch_leading (ok : ascii → bool) (r : regex) (s : string) (c : ascii) :
  startsIn ok r = true → ok c = false → fullMatch r (String c s) = false.
Proof.
  intros Hs Hc. apply not_true_is_false. intros H%fullMatch_lang.
  destruct (startsIn_lang ok _ _ H Hs) as [Heq|(a & s' & [= <- <-] & Ha)];
    [discriminate | congruence].
Qed.

Lemma isApproved_leading_blank (body : string) (c : ascii) :
  isBlank c = true ∨ c = newline → fst (isApproved (String c body)) = false.
Proof.
  intros Hc. unfold isApproved, approvedWords, isApprovedLoop, MatchString.
  rewrite !(fullMatch_leading (fun a => negb (isBlank a || Ascii.eqb a newline)));
    try done.
  all: destruct Hc as [->| ->]; [done | by rewrite orb_true_r].
Qed.

Lemma isDenied_leading_blank (body : string) (c : ascii) :
  isBlank c = true ∨ c = newline → fst (isDenied (String c body)) = false.
Proof.
  intros Hc. unfold isDenied, deniedWords, isDeniedLoop, MatchString.
  rewrite !(fullMatch_leading (fun a => negb (isBlank a || Ascii.eqb a newline)));
    try done.
  all: destruct Hc as [->| ->]; [done | by rewrite orb_true_r].
Qed.

(** The bodies the spec lists: approvals in any case with punctuation and
    a final newline; a final space is not trimmed. The long s of Unicode
    folds with s under the flag [(?i)], so it is accepted in yes. *)
Lemma classifier_examples :
  fst (isApproved "Approved") = true ∧
  fst (isApproved "approved!") = true ∧
  fst (isApproved ("APPROVE." +:+ String newline "")) = true ∧
  fst (isApproved "approved ") = false ∧
  fst (isApproved "lgtm, ship it") = false ∧
  fst (isApproved ("ye" +:+ longS)) = true ∧
  fst (isDenied "No!") = true ∧
  fst (isDenied "no!!") = false ∧
  fst (isDenied ("deny" +:+ String newline "")) = false.
Proof. split_and!; vm_compute; reflexivity. Qed.

(** ** Slices *)

Lemma approversIndexFrom_cases (k : Z) (l : list string) (name : string) :
  ((name ∉ l) ∧ approversIndexFrom k l name = -1) ∨
  (∃ i : nat, l !! i = Some name ∧ approversIndexFrom k l name = k + Z.of_nat i).
Proof.
  revert k. induction l as [|a l IH]; intros k; cbn.
  - left. split; [apply not_elem_of_nil | done].
  - destruct (String.eqb_spec a name) as [->|Hne].
    + right. exists O. split; [done | lia].
    + destruct (IH (k + 1)) as [[Hnotin ->]|(i & Hi & ->)].
      * left. split; [|done]. rewrite not_elem_of_cons. split; [congruence | done].
      * right. exists (S i). split; [done | lia].
Qed.

Lemma approversIndex_cases (l : list string) (name : string) :
  ((name ∉ l) ∧ approversIndex l name = -1) ∨
  (∃ i : nat, l !! i = Some name ∧ approversIndex l name = Z.of_nat i).
Proof. apply approversIndexFrom_cases. Qed.

Lemma approversIndex_elem_of (l : list string) (name : string) :
  name ∈ l → ∃ i : nat, l !! i = Some name ∧ approversIndex l name = Z.of_nat i.
Proof. intros Hin. by destruct (approversIndex_cases l name) as [[? _]|?]. Qed.

Lemma swap_with_last (l : list string) (i : nat) (u : string) :
  l !! i = Some u →
  (lastApprover ← index l (len l - 1);
   swapped ← setIndex l (Z.of_nat i) lastApprover;
   shrunk ← sliceTo swapped (len l - 1);
   Ok (Continue shrunk)) = Ok (Continue (swapRemove l i)).
Proof.
  intros Hi. pose proof (lookup_lt_Some _ _ _ Hi) as Hlt.
  unfold index, setIndex, sliceTo, swapRemove, len.
  destruct (last l) as [x|] eqn:Hlast.
  2:{ apply last_None in Hlast as ->. cbn in Hlt. lia. }
  rewrite last_lookup in Hlast.
  replace (Z.to_nat (Z.of_nat (length l) - 1)) with (pred (length l)) by lia.
  assert (H1 : (0 <=? Z.of_nat (length l) - 1) = true) by (apply Z.leb_le; lia).
  assert (H2 : (0 <=? Z.of_nat i) = true) by (apply Z.leb_le; lia).
  assert (H3 : (Z.of_nat i <? Z.of_nat (length l)) = true) by (apply Z.ltb_lt; lia).
  assert (H4 : (Z.of_nat (length l) - 1 <=? Z.of_nat (length l)) = true)
    by (apply Z.leb_le; lia).
  rewrite H1, Hlast. cbn. rewrite H2, H3. cbn.
  rewrite length_insert, H4. cbn. rewrite Nat2Z.id. do 3 f_equal. lia.
Qed.

Lemma swapRemove_perm (l : list string) (i : nat) :
  (i < length l)%nat → swapRemove l i ≡ₚ delete i l.
Proof.
  unfold swapRemove. revert i. induction l as [|a l IH]; intros i Hi; cbn in Hi; [lia |].
  destruct (last (a :: l)) as [x|] eqn:Hlast; [|by apply last_None in Hlast].
  cbn [length]. replace (S (length l) - 1)%nat with (length l) by lia.
  destruct i as [|i]; cbn.
  - destruct l as [|b l _] using rev_ind; [done |].
    rewrite last_cons, last_snoc in Hlast. injection Hlast as ->.
    rewrite length_app. cbn. replace (length l + 1)%nat with (S (length l)) by lia.
    cbn. rewrite take_app_length. by rewrite Permutation_app_comm.
  - destruct l as [|b l']; [cbn in Hi; lia |].
    rewrite last_cons in Hlast.
    destruct (last (b :: l')) as [y|] eqn:Hlast'; [|by apply last_None in Hlast'].
    injection Hlast as ->.
    cbn [length take]. f_equiv.
    specialize (IH i ltac:(cbn in *; lia)).
    cbn [length] in IH. replace (S (length l') - 1)%nat with (length l') in IH by lia.
    exact IH.
Qed.

Lemma swapRemove_length (l : list string) (i : nat) :
  (i < length l)%nat → S (length (swapRemove l i)) = length l.
Proof.
  intros Hi. rewrite (swapRemove_perm l i Hi), length_delete; [lia |].
  by apply lookup_lt_is_Some.
Qed.

Lemma swapRemove_subseteq (l : list string) (i : nat) :
  (i < length l)%nat → swapRemove l i ⊆ l.
Proof.
  intros Hi x. rewrite (swapRemove_perm l i Hi).
  intros Hx. eapply elem_of_sublist; [done | apply sublist_delete].
Qed.

Lemma swapRemove_NoDup (l : list string) (i : nat) :
  (i < length l)%nat → NoDup l → NoDup (swapRemove l i).
Proof.
  intros Hi Hnd. rewrite (swapRemove_perm l i Hi).
  eapply sublist_NoDup; [done | apply sublist_delete].
Qed.

Lemma swapRemove_removes (l : list string) (i : nat) (u : string) :
  l !! i = Some u → NoDup l → u ∉ swapRemove l i.
Proof.
  intros Hi Hnd. rewrite (swapRemove_perm l i (lookup_lt_Some _ _ _ Hi)).
  rewrite <- (take_drop_middle l i u Hi) in Hnd.
  rewrite delete_take_drop.
  apply NoDup_app in Hnd as (_ & Hnd1 & Hnd2).
  apply NoDup_cons in Hnd2 as [Hnd2 _].
  rewrite elem_of_app. intros [H|H]; [|done]. apply (Hnd1 _ H). left.
Qed.

Lemma swapRemove_keeps (l : list string) (i : nat) (u v : string) :
  l !! i = Some u → v ∈ l → v ≠ u → v ∈ swapRemove l i.
Proof.
  intros Hi Hv Hne. rewrite (swapRemove_perm l i (lookup_lt_Some _ _ _ Hi)).
  rewrite <- (take_drop_middle l i u Hi) in Hv. rewrite delete_take_drop.
  rewrite elem_of_app, elem_of_cons in Hv. rewrite elem_of_app.
  destruct Hv as [?|[?|?]]; [by left | done | by right].
Qed.

(** ** One iteration of the loop *)

Lemma isApproved_pair (body : string) : isApproved body = (fst (isApproved body), None).
Proof.
  pose proof (isApprovedLoop_err approvedWords body) as H. unfold isApproved.
  destruct (isApprovedLoop approvedWords body) as [b e]. cbn in *. by subst.
Qed.

Lemma isDenied_pair (body : string) : isDenied body = (fst (isDenied body), None).
Proof.
  pose proof (isDeniedLoop_err deniedWords body) as H. unfold isDenied.
  destruct (isDeniedLoop deniedWords body) as [b e]. cbn in *. by subst.
Qed.

Local Opaque isApproved isDenied.

Section LoopBody.

Variable declaredMap : gomap.
Variable approvers : list string.
Variable multipleDeploymentNames : list string.
Variable threshold : Z.

Local Abbreviation body :=
  (loopBody declaredMap approvers multipleDeploymentNames threshold).

(** A comment whose author is not in [remainingApprovers] is skipped
    before its body is looked at. *)
Lemma loopBody_skip (remaining : list string) (c : IssueComment) :
  GetLogin c ∉ remaining → body remaining c = Ok (Continue remaining).
Proof.
  intros Hnotin. unfold loopBody.
  destruct (approversIndex_cases remaining (GetLogin c)) as [[_ ->]|(i & Hi & _)]; [done |].
  destruct Hnotin. by eapply list_elem_of_lookup_2.
Qed.

(** The comment of an author found at index [i]. *)
Lemma loopBody_member (remaining : list string) (c : IssueComment) (i : nat) :
  approversIndex remaining (GetLogin c) = Z.of_nat i →
  remaining !! i = Some (GetLogin c) →
  body remaining c =
    v ← classify declaredMap multipleDeploymentNames (GetBody c);
    match v with
    | Rejected r => Ok (Return r)
    | Approval names =>
        if len remaining =? quorumLength approvers threshold
        then Ok (Return (mkResult approvalStatusApproved names None))
        else Ok (Continue (swapRemove remaining i))
    | Denial => Ok (Return (mkResult approvalStatusDenied [] None))
    | Neither => Ok (Continue remaining)
    end.
Proof.
  intros Hidx Hi. unfold loopBody, classify, extractDeploymentNames.
  rewrite Hidx. assert (Hge : (Z.of_nat i <? 0) = false) by (apply Z.ltb_ge; lia).
  rewrite Hge.
  destruct (if Contains (GetBody c) "[" && negb (len multipleDeploymentNames =? 0)
            then deploymentBlock declaredMap multipleDeploymentNames (GetBody c)
            else Ok (inl (GetBody c, []))) as [[[b names]|r]|msg]; cbn; [|done..].
  rewrite (isApproved_pair b). destruct (fst (isApproved b)).
  - fold (quorumLength approvers threshold).
    destruct (len remaining =? quorumLength approvers threshold); [done |].
    by rewrite (swap_with_last _ _ _ Hi).
  - rewrite (isDenied_pair b). by destruct (fst (isDenied b)).
Qed.

(** Whatever an iteration does, the slice it leaves is drawn from the one
    it found. *)
Lemma loopBody_continue (remaining remaining' : list string) (c : IssueComment) :
  body remaining c = Ok (Continue remaining') →
  remaining' = remaining ∨
  ∃ i, remaining !! i = Some (GetLogin c) ∧ remaining' = swapRemove remaining i.
Proof.
  destruct (approversIndex_cases remaining (GetLogin c)) as [[Hnotin _]|(i & Hi & Hidx)].
  - rewrite (loopBody_skip _ _ Hnotin). intros [= <-]. by left.
  - rewrite (loopBody_member _ _ _ Hidx Hi).
    destruct (classify _ _ _) as [[names| | |r]|msg]; cbn; try done.
    + destruct (len remaining =? _); [done |]. intros [= <-]. right. eauto.
    + intros [= <-]. by left.
Qed.

Lemma loopBody_continue_subseteq (remaining remaining' : list string) (c : IssueComment) :
  body remaining c = Ok (Continue remaining') → remaining' ⊆ remaining.
Proof.
  intros [->|(i & Hi & ->)]%loopBody_continue; [done |].
  apply swapRemove_subseteq. by eapply lookup_lt_Some.
Qed.

Lemma loopBody_continue_NoDup (remaining remaining' : list string) (c : IssueComment) :
  body remaining c = Ok (Continue remaining') → NoDup remaining → NoDup remaining'.
Proof.
  intros [->|(i & Hi & ->)]%loopBody_continue; [done |].
  apply swapRemove_NoDup. by eapply lookup_lt_Some.
Qed.

End LoopBody.

(** ** The loop over the comments *)

Section Loop.

Variable declaredMap : gomap.
Variable approvers : list string.
Variable multipleDeploymentNames : list string.
Variable threshold : Z.

Local Abbreviation body :=
  (loopBody declaredMap approvers multipleDeploymentNames threshold).
Local Abbreviation loop :=
  (commentsLoop declaredMap approvers multipleDeploymentNames threshold).
Local Abbreviation after :=
  (remainingAfter declaredMap approvers multipleDeploymentNames threshold).

Lemma commentsLoop_app (remaining : list string) (pre post : list IssueComment) :
  loop remaining (pre ++ post) =
    match after remaining pre with
    | Some remaining' => loop remaining' post
    | None => loop remaining pre
    end.
Proof.
  revert remaining. induction pre as [|c pre IH]; intros remaining; [done |].
  cbn. destruct (body remaining c) as [[remaining'|r]|msg]; cbn; [apply IH | done..].
Qed.

Lemma remainingAfter_app (remaining : list string) (pre post : list IssueComment) :
  after remaining (pre ++ post) =
    match after remaining pre with
    | Some remaining' => after remaining' post
    | None => None
    end.
Proof.
  revert remaining. induction pre as [|c pre IH]; intros remaining; [done |].
  cbn. destruct (body remaining c) as [[remaining'|r]|msg]; cbn; [apply IH | done..].
Qed.

(** The loop runs through the comments exactly when it returns Pending
    without an error. *)
Lemma remainingAfter_pending (remaining remaining' : list string)
    (comments : list IssueComment) :
  after remaining comments = Some remaining' →
  loop remaining comments = Ok (mkResult approvalStatusPending [] None).
Proof.
  revert remaining. induction comments as [|c cs IH]; intros remaining; [done |].
  cbn. destruct (body remaining c) as [[remaining''|r]|msg]; cbn; [apply IH | done..].
Qed.

Lemma remainingAfter_subseteq (remaining remaining' : list string)
    (comments : list IssueComment) :
  after remaining comments = Some remaining' → remaining' ⊆ remaining.
Proof.
  revert remaining. induction comments as [|c cs IH]; intros remaining; cbn.
  - by intros [= <-].
  - destruct (body remaining c) as [[remaining''|r]|msg] eqn:Hb; try done.
    intros H. etrans; [by apply IH | by eapply loopBody_continue_subseteq].
Qed.

Lemma remainingAfter_NoDup (remaining remaining' : list string)
    (comments : list IssueComment) :
  after remaining comments = Some remaining' → NoDup remaining → NoDup remaining'.
Proof.
  revert remaining. induction comments as [|c cs IH]; intros remaining; cbn.
  - by intros [= <-].
  - destruct (body remaining c) as [[remaining''|r]|msg] eqn:Hb; try done.
    intros H Hnd. apply (IH _ H). by eapply loopBody_continue_NoDup.
Qed.

(** Dropping a comment whose author is not in [remainingApprovers] at the
    start of the loop changes nothing, wherever the comment stands. *)
Lemma commentsLoop_skip (remaining : list string) (pre post : list IssueComment)
    (c : IssueComment) :
  GetLogin c ∉ remaining →
  loop remaining (pre ++ c :: post) = loop remaining (pre ++ post).
Proof.
  intros Hnotin. rewrite !commentsLoop_app.
  destruct (after remaining pre) as [remaining'|] eqn:Hpre; [|done].
  cbn. rewrite loopBody_skip; [done |].
  intros Hin. apply Hnotin. by eapply remainingAfter_subseteq.
Qed.

End Loop.

(** ** The deployment-name block *)

Local Arguments Ascii.eqb : simpl never.
Local Opaque newline.

Lemma Split_not_nil (s : string) (sep : ascii) : Split s sep ≠ [].
Proof.
  destruct s as [|c s]; cbn; [done |].
  destruct (Ascii.eqb c sep); [done |]. by destruct (Split s sep).
Qed.

Lemma Split_Contains (s : string) (sep : ascii) :
  Contains s sep = true → ∃ p0 p1 rest, Split s sep = p0 :: p1 :: rest.
Proof.
  induction s as [|c s IH]; cbn; [done |].
  destruct (Ascii.eqb c sep).
  - intros _. pose proof (Split_not_nil s sep).
    destruct (Split s sep) as [|p1 rest]; [done |]. eauto.
  - intros (p0 & p1 & rest & ->)%IH. eauto.
Qed.

Lemma groupBeforeClose_complete (g rest : string) :
  allChars (fun a => negb (Ascii.eqb a newline)) g = true →
  is_Some (groupBeforeClose (g +:+ String "]" rest)).
Proof.
  induction g as [|a g IH].
  - intros _. rewrite append_nil_l. cbn. by destruct (groupBeforeClose rest).
  - rewrite allChars_cons, append_cons. intros [Ha Hg]%andb_true_iff.
    cbn. apply negb_true_iff in Ha. rewrite Ha.
    destruct (IH Hg) as [g' ->]. done.
Qed.

Lemma lang_bracketPattern (w : string) :
  lang bracketPattern w →
  ∃ g, w = String "[" (g +:+ "]") ∧
       allChars (fun a => negb (Ascii.eqb a newline)) g = true.
Proof.
  unfold bracketPattern.
  intros (s1 & s2 & -> & (a & -> & <-%Ascii.eqb_eq)%lang_class_inv
          & (g & s3 & -> & Hg%lang_star_class
             & (b & -> & <-%Ascii.eqb_eq)%lang_class_inv)%lang_cat_inv)%lang_cat_inv.
  by exists g.
Qed.

(** The search finds a match whenever some part of the text matches. *)
Lemma FindStringSubmatch_complete (s : string) :
  matchesWithin bracketPattern s → ∃ m g, FindStringSubmatch s = [m; g].
Proof.
  intros (before & w & after & -> & (g & -> & Hg)%lang_bracketPattern).
  induction before as [|c before IH].
  - rewrite append_nil_l, append_cons, append_assoc. cbn.
    destruct (groupBeforeClose_complete g after Hg) as [g' Hg'].
    rewrite append_cons, append_nil_l. rewrite Hg'. eauto.
  - rewrite append_cons. cbn.
    destruct (Ascii.eqb c "["); [|done].
    destruct (groupBeforeClose _); [eauto | done].
Qed.

Lemma groupBeforeClose_sound (s g : string) :
  groupBeforeClose s = Some g →
  allChars (fun a => negb (Ascii.eqb a newline)) g = true ∧
  ∃ rest, s = g +:+ String "]" rest.
Proof.
  revert g. induction s as [|c s IH]; intros g; cbn; [done |].
  destruct (Ascii.eqb c newline) eqn:Hc; [done |].
  destruct (groupBeforeClose s) as [g'|].
  - intros [= <-]. destruct (IH g' eq_refl) as (Hg' & rest & ->).
    rewrite allChars_cons, Hc. split; [done |]. by exists rest.
  - destruct (Ascii.eqb_spec c "]") as [->|]; [|done].
    intros [= <-]. split; [done |]. by exists s.
Qed.

(** What the search returns is a match: the text of the pattern between
    its brackets, within the text searched. *)
Lemma FindStringSubmatch_sound (s : string) :
  FindStringSubmatch s = [] ∨
  ∃ g, FindStringSubmatch s = [String "[" (g +:+ "]"); g] ∧
       matchesWithin bracketPattern s.
Proof.
  induction s as [|c s IH]; cbn; [by left |].
  assert (Hshift : matchesWithin bracketPattern s →
                   matchesWithin bracketPattern (String c s)).
  { intros (before & w & after & -> & Hw). by exists (String c before), w, after. }
  destruct (Ascii.eqb_spec c "[") as [->|].
  - destruct (groupBeforeClose s) as [g|] eqn:Hg.
    + right. exists g. split; [done |].
      apply groupBeforeClose_sound in Hg as (Hg & rest & ->).
      exists "", (String "[" (g +:+ "]")), rest. split.
      * by rewrite append_nil_l, append_cons, append_assoc.
      * apply (lang_cat _ _ (String "[" "") (g +:+ "]")); [by constructor |].
        apply lang_cat; [by apply lang_star_class | by constructor].
    + destruct IH as [->|(g & -> & H)]; [by left |]. right. eauto.
  - destruct IH as [->|(g & -> & H)]; [by left |]. right. eauto.
Qed.

Lemma fillValidNames_nil_map (names : list string) :
  names ≠ [] → fillValidNames names None = Panic "assignment to entry in nil map".
Proof. by destruct names. Qed.

Lemma fillValidNames_made (names : list string) (g : gmap string bool) :
  ∃ g', fillValidNames names (Some g) = Ok (Some g').
Proof.
  revert g. induction names as [|v names IH]; intros g; cbn; [eauto |]. apply IH.
Qed.

(** In the source, a comment that enters the block with a bracketed part
    that matches ends the call with a run-time panic. *)
Lemma deploymentBlock_nil_map (names : list string) (commentBody : string) :
  names ≠ [] → Contains commentBody "[" = true →
  matchesWithin bracketPattern (deploymentNamesRaw commentBody) →
  deploymentBlock None names commentBody = Panic "assignment to entry in nil map".
Proof.
  intros Hnames (p0 & p1 & rest & Hsplit)%Split_Contains Hm.
  unfold deploymentBlock. unfold deploymentNamesRaw in Hm. rewrite Hsplit in *.
  change (nth 1 (p0 :: p1 :: rest) "") with p1 in Hm.
  change (index (p0 :: p1 :: rest) 0) with (Ok p0).
  change (index (p0 :: p1 :: rest) 1) with (Ok p1).
  destruct (FindStringSubmatch_complete _ Hm) as (m & g & HF).
  unfold mbind, go_bind. rewrite HF. cbn [len length negb Z.of_nat].
  change (Z.of_nat 2 =? 2) with true. cbn [negb].
  by rewrite fillValidNames_nil_map.
Qed.

Lemma classify_approved (declaredMap : gomap) (names : list string) (commentBody : string) :
  fst (isApproved commentBody) = true →
  classify declaredMap names commentBody = Ok (Approval []).
Proof.
  intros H. unfold classify, extractDeploymentNames.
  rewrite (isApproved_no_bracket _ H). cbn. by rewrite H.
Qed.

Lemma classify_denied (declaredMap : gomap) (names : list string) (commentBody : string) :
  fst (isDenied commentBody) = true →
  classify declaredMap names commentBody = Ok Denial.
Proof.
  intros H. unfold classify, extractDeploymentNames.
  rewrite (isDenied_no_bracket _ H). cbn.
  by rewrite (isDenied_not_isApproved _ H), H.
Qed.

(** ** Reaching the quorum *)

Lemma wrap64_small (z : Z) : - 2 ^ 63 ≤ z < 2 ^ 63 → wrap64 z = z.
Proof. intros Hz. unfold wrap64. rewrite Z.mod_small; lia. Qed.

Lemma quorumLength_in_range (approvers : list string) (m : Z) :
  1 ≤ m ≤ len approvers → len approvers < 2 ^ 63 →
  quorumLength approvers m = len approvers - m + 1.
Proof.
  intros Hm Hlen. unfold quorumLength, int_add, int_sub.
  rewrite (wrap64_small (len approvers - m)) by lia. apply wrap64_small. lia.
Qed.

Section Quorum.

Variable declaredMap : gomap.
Variable approvers : list string.
Variable multipleDeploymentNames : list string.
Variable threshold : Z.

Local Abbreviation loop :=
  (commentsLoop declaredMap approvers multipleDeploymentNames threshold).
Local Abbreviation authors := (approvalAuthors declaredMap multipleDeploymentNames).
Local Abbreviation verdictOf := (classify declaredMap multipleDeploymentNames).

Lemma approvalAuthors_cons_in (members : list string) (d : IssueComment)
    (l : list IssueComment) :
  GetLogin d ∈ members →
  isApprovalComment declaredMap multipleDeploymentNames d = true →
  authors members (d :: l) = GetLogin d :: authors members l.
Proof. intros H1 H2. unfold approvalAuthors. by rewrite filter_cons_True. Qed.

Lemma approvalAuthors_cons_out (members : list string) (d : IssueComment)
    (l : list IssueComment) :
  GetLogin d ∉ members ∨
  isApprovalComment declaredMap multipleDeploymentNames d = false →
  authors members (d :: l) = authors members l.
Proof.
  intros H. unfold approvalAuthors. rewrite filter_cons_False; [done |].
  intros [H1 H2]. destruct H as [H|H]; [done | congruence].
Qed.

Lemma approvalAuthors_take (members : list string) (l : list IssueComment) (j : nat) :
  authors members (take j l) ⊆ authors members l.
Proof.
  intros x. rewrite <- (take_drop j l) at 2. unfold approvalAuthors.
  rewrite filter_app, fmap_app, elem_of_app. by left.
Qed.

(** Removing an approver who wrote no approval in [l] does not change the
    authors of the approvals in [l]. *)
Lemma approvalAuthors_swapRemove (remaining : list string) (i : nat) (u : string)
    (l : list IssueComment) :
  remaining !! i = Some u →
  u ∉ authors remaining l →
  authors (swapRemove remaining i) l = authors remaining l.
Proof.
  intros Hi. pose proof (lookup_lt_Some _ _ _ Hi) as Hlt.
  induction l as [|d l IH]; [done |]. intros Hu.
  destruct (isApprovalComment declaredMap multipleDeploymentNames d) eqn:Hd.
  2:{ rewrite !approvalAuthors_cons_out in * by (by right). by apply IH. }
  destruct (decide (GetLogin d ∈ remaining)) as [Hin|Hout].
  - rewrite (approvalAuthors_cons_in remaining) in * by done.
    apply not_elem_of_cons in Hu as [Hne Hu].
    rewrite approvalAuthors_cons_in; [by rewrite IH | | done].
    by eapply swapRemove_keeps.
  - rewrite (approvalAuthors_cons_out remaining) in * by (by left).
    rewrite approvalAuthors_cons_out; [by apply IH |].
    left. intros Hin. apply Hout. by eapply swapRemove_subseteq.
Qed.

(** From any state of the loop: when [k] approvals of distinct remaining
    approvers stand between the loop and the approval [c], the slice is
    [k] longer than the length at which an approval returns, and the
    remaining approvers write no denial and no rejected comment before
    they approve, the loop returns Approved at [c] with the names of
    [c]. *)
Lemma commentsLoop_quorum (pre post : list IssueComment) (c : IssueComment)
    (names : list string) (remaining : list string) :
  NoDup remaining →
  NoDup (authors remaining pre) →
  len remaining = quorumLength approvers threshold + len (authors remaining pre) →
  (∀ (j : nat) (d : IssueComment),
     pre !! j = Some d → GetLogin d ∈ remaining →
     GetLogin d ∉ authors remaining (take j pre) →
     verdictOf (GetBody d) = Ok Neither ∨ ∃ ns, verdictOf (GetBody d) = Ok (Approval ns)) →
  GetLogin c ∈ remaining →
  GetLogin c ∉ authors remaining pre →
  verdictOf (GetBody c) = Ok (Approval names) →
  loop remaining (pre ++ c :: post) = Ok (mkResult approvalStatusApproved names None).
Proof.
  revert remaining. induction pre as [|d pre IH]; intros remaining Hnd Hnda Hlen Hquiet Hc Hcn Hcv.
  - destruct (approversIndex_elem_of _ _ Hc) as (i & Hi & Hidx).
    cbn [app commentsLoop]. rewrite (loopBody_member _ _ _ _ _ _ _ Hidx Hi), Hcv.
    cbn. unfold approvalAuthors, len in Hlen. cbn in Hlen.
    replace (len remaining =? quorumLength approvers threshold) with true; [done |].
    symmetry. apply Z.eqb_eq. unfold len. lia.
  - assert (Hsame : authors remaining (d :: pre) = authors remaining pre →
                    loopBody declaredMap approvers multipleDeploymentNames threshold
                      remaining d = Ok (Continue remaining) →
                    loop remaining ((d :: pre) ++ c :: post)
                    = Ok (mkResult approvalStatusApproved names None)).
    { intros Heq Hstep. cbn [app commentsLoop]. rewrite Hstep. cbn.
      rewrite Heq in *. apply IH; try done.
      intros j d' Hj Hin Hnotin. apply (Hquiet (S j) d'); [done | done |].
      cbn [take]. destruct (decide (GetLogin d ∈ remaining ∧
        isApprovalComment declaredMap multipleDeploymentNames d = true)) as [[H1 H2]|Hn].
      - rewrite approvalAuthors_cons_in in Heq by done.
        apply (f_equal length) in Heq. cbn in Heq. lia.
      - rewrite approvalAuthors_cons_out; [done |].
        destruct (decide (GetLogin d ∈ remaining)); [|by left].
        right. apply not_true_is_false. tauto. }
    destruct (decide (GetLogin d ∈ remaining)) as [Hin|Hout].
    2:{ apply Hsame; [apply approvalAuthors_cons_out; by left | by apply loopBody_skip]. }
    destruct (approversIndex_elem_of _ _ Hin) as (i & Hi & Hidx).
    pose proof (loopBody_member declaredMap approvers multipleDeploymentNames threshold
                  _ _ _ Hidx Hi) as Hstep.
    destruct (Hquiet O d eq_refl Hin) as [Hv|[ns Hv]].
    { cbn. apply not_elem_of_nil. }
    + apply Hsame.
      * apply approvalAuthors_cons_out. right. unfold isApprovalComment. by rewrite Hv.
      * by rewrite Hstep, Hv.
    + assert (Hd : isApprovalComment declaredMap multipleDeploymentNames d = true)
        by (unfold isApprovalComment; by rewrite Hv).
      rewrite (approvalAuthors_cons_in remaining) in * by done.
      apply NoDup_cons in Hnda as [Hu Hnda].
      apply not_elem_of_cons in Hcn as [Hcu Hcn].
      pose proof (lookup_lt_Some _ _ _ Hi) as Hlt.
      pose proof (swapRemove_length _ _ Hlt) as Hlen'.
      rewrite Hv in Hstep. cbn in Hstep.
      replace (len remaining =? quorumLength approvers threshold) with false in Hstep.
      2:{ symmetry. apply Z.eqb_neq. unfold len in *. cbn [length] in Hlen. lia. }
      cbn [app commentsLoop]. rewrite Hstep. cbn.
      apply IH.
      * by apply swapRemove_NoDup.
      * by rewrite (approvalAuthors_swapRemove _ _ _ _ Hi).
      * rewrite (approvalAuthors_swapRemove _ _ _ _ Hi) by done.
        unfold len in *. cbn [length] in Hlen. lia.
      * intros j d' Hj Hin' Hnotin'.
        assert (Hutake : GetLogin d ∉ authors remaining (take j pre)).
        { intros H. by apply Hu, (approvalAuthors_take _ _ j). }
        rewrite (approvalAuthors_swapRemove _ _ _ _ Hi) in Hnotin' by done.
        apply (Hquiet (S j) d'); [done | by eapply swapRemove_subseteq |].
        cbn [take]. rewrite approvalAuthors_cons_in by done.
        apply not_elem_of_cons. split; [|done].
        intros Heq. rewrite Heq in Hin'. by apply (swapRemove_removes _ _ _ Hi Hnd).
      * by eapply swapRemove_keeps.
      * by rewrite (approvalAuthors_swapRemove _ _ _ _ Hi).
      * done.
Qed.

End Quorum.

(** The quorum, for the function with any initial map: under the premises
    of the quorum the call returns Approved with the names of the decisive
    comment. With the nil map of the source the premises rule out a
    comment that panics ([classify] must yield a verdict); with the map
    made they are the premises of the spec. *)
Lemma quorum_is_approved (declaredMap : gomap) (approvers : list string)
    (minimumApprovals : Z) (multipleDeploymentNames : list string)
    (pre post : list IssueComment) (c : IssueComment) (names : list string) :
  quorumPremises declaredMap approvers minimumApprovals multipleDeploymentNames
    pre c names →
  approvalFromCommentsWith declaredMap approvers minimumApprovals
    multipleDeploymentNames (pre ++ c :: post)
  = Ok (mkResult approvalStatusApproved names None).
Proof.
  intros (Hnd & Hm & Hlen & Hnda & Hcount & Hquiet & Hc & Hcn & Hcv).
  unfold approvalFromCommentsWith.
  assert (Hadj : adjustedMinimum approvers minimumApprovals = minimumApprovals).
  { unfold adjustedMinimum. destruct (Z.eqb_spec minimumApprovals 0); [lia | done]. }
  rewrite Hadj. apply commentsLoop_quorum; try done.
  rewrite quorumLength_in_range by done. lia.
Qed.

(** The premises of the quorum stated for the source itself (the nil
    map): they then also say that no comment read before the decisive one
    panics, and the source returns Approved. *)
Lemma source_quorum_is_approved (approvers : list string) (minimumApprovals : Z)
    (multipleDeploymentNames : list string) (pre post : list IssueComment)
    (c : IssueComment) (names : list string) :
  quorumPremises None approvers minimumApprovals multipleDeploymentNames pre c names →
  approvalFromComments (pre ++ c :: post) approvers minimumApprovals
    multipleDeploymentNames = Ok (mkResult approvalStatusApproved names None).
Proof. apply quorum_is_approved. Qed.

(** With the map made, the premises of the quorum as the spec has them
    give Approved. *)
Lemma repaired_quorum_is_approved (approvers : list string) (minimumApprovals : Z)
    (multipleDeploymentNames : list string) (pre post : list IssueComment)
    (c : IssueComment) (names : list string) :
  quorumPremises (Some ∅) approvers minimumApprovals multipleDeploymentNames pre c names →
  approvalFromCommentsRepaired (pre ++ c :: post) approvers minimumApprovals
    multipleDeploymentNames = Ok (mkResult approvalStatusApproved names None).
Proof. apply quorum_is_approved. Qed.

(** ** The map made: the function is total *)

Lemma collectNames_cases (valid : gomap) (names acc : list string) :
  collectNames valid names acc = inr errUnknownDeploymentName ∨
  ∃ l, collectNames valid names acc = inl l.
Proof.
  revert acc. induction names as [|v names IH]; intros acc; cbn; [eauto |].
  destruct (mapaccess valid v); cbn; [apply IH | by left].
Qed.

Lemma deploymentBlock_made_total (g : gmap string bool) (names : list string)
    (commentBody : string) :
  Contains commentBody "[" = true →
  ∃ parsed, deploymentBlock (Some g) names commentBody = Ok parsed.
Proof.
  intros (p0 & p1 & rest & Hsplit)%Split_Contains.
  unfold deploymentBlock. rewrite Hsplit.
  change (index (p0 :: p1 :: rest) 0) with (Ok p0).
  change (index (p0 :: p1 :: rest) 1) with (Ok p1).
  unfold mbind, go_bind.
  destruct (FindStringSubmatch_sound ("[" +:+ p1)) as [->|(grp & -> & _)]; [by eexists |].
  cbn [len length negb Z.of_nat]. change (Z.of_nat 2 =? 2) with true. cbn [negb].
  destruct (fillValidNames_made names g) as [g' ->].
  change (index [String "[" (grp +:+ "]"); grp] 1) with (Ok grp).
  destruct (collectNames_cases (Some g') (Split grp ",") []) as [->|[l ->]]; by eexists.
Qed.

Lemma classify_made_total (g : gmap string bool) (names : list string)
    (commentBody : string) :
  ∃ v, classify (Some g) names commentBody = Ok v.
Proof.
  unfold classify, extractDeploymentNames.
  destruct (Contains commentBody "[") eqn:Hbr; cbn [andb]; [|by eexists].
  destruct (negb (len names =? 0)); [|by eexists].
  destruct (deploymentBlock_made_total g names _ Hbr) as [parsed ->]. by eexists.
Qed.

Lemma loopBody_made_total (g : gmap string bool) (approvers names : list string)
    (threshold : Z) (remaining : list string) (c : IssueComment) :
  ∃ ctl, loopBody (Some g) approvers names threshold remaining c = Ok ctl.
Proof.
  destruct (approversIndex_cases remaining (GetLogin c)) as [[Hnotin _]|(i & Hi & Hidx)].
  - rewrite (loopBody_skip _ _ _ _ _ _ Hnotin). by eexists.
  - rewrite (loopBody_member _ _ _ _ _ _ _ Hidx Hi).
    destruct (classify_made_total g names (GetBody c)) as [v ->]. cbn.
    destruct v; [destruct (len remaining =? _) | ..]; by eexists.
Qed.

(** With the map made, [approvalFromComments] returns on every input: no
    index, slice bound or map write panics. *)
Lemma approvalFromCommentsRepaired_total (comments : list IssueComment)
    (approvers : list string) (minimumApprovals : Z)
    (multipleDeploymentNames : list string) :
  ∃ r, approvalFromCommentsRepaired comments approvers minimumApprovals
         multipleDeploymentNames = Ok r.
Proof.
  unfold approvalFromCommentsRepaired, approvalFromCommentsWith.
  generalize (adjustedMinimum approvers minimumApprovals) as threshold.
  intros threshold. generalize approvers at 2 as remaining.
  induction comments as [|c cs IH]; intros remaining; cbn; [by eexists |].
  destruct (loopBody_made_total ∅ approvers multipleDeploymentNames threshold remaining c)
    as [[remaining'|r] ->]; cbn; [apply IH | by eexists].
Qed.

(** ** The loop runs out of comments *)

Section Exhausted.

Variable declaredMap : gomap.
Variable approvers : list string.
Variable multipleDeploymentNames : list string.
Variable threshold : Z.

Local Abbreviation body :=
  (loopBody declaredMap approvers multipleDeploymentNames threshold).
Local Abbreviation loop :=
  (commentsLoop declaredMap approvers multipleDeploymentNames threshold).
Local Abbreviation after :=
  (remainingAfter declaredMap approvers multipleDeploymentNames threshold).

(** A loop in which no iteration returns either runs out of comments and
    returns Pending, or panics. *)
Lemma commentsLoop_no_return (remaining : list string) (comments : list IssueComment) :
  (∀ pre post c remaining' r,
     comments = pre ++ c :: post → after remaining pre = Some remaining' →
     body remaining' c ≠ Ok (Return r)) →
  loop remaining comments = Ok (mkResult approvalStatusPending [] None) ∨
  ∃ msg, loop remaining comments = Panic msg.
Proof.
  revert remaining. induction comments as [|c cs IH]; intros remaining Hno; cbn; [by left |].
  destruct (body remaining c) as [[remaining'|r]|msg] eqn:Hstep; cbn.
  - apply IH. intros pre post c' remaining'' r Heq Hrun.
    apply (Hno (c :: pre) post c' remaining'' r); [by rewrite Heq |].
    cbn. by rewrite Hstep.
  - destruct (Hno [] cs c remaining r eq_refl eq_refl Hstep).
  - right. by eexists.
Qed.

End Exhausted.

(** When no comment makes the loop return, the call returns Pending without
    names and without an error, unless it panics. *)
Lemma no_early_return_pending_or_panic (declaredMap : gomap) (approvers : list string)
    (minimumApprovals : Z) (multipleDeploymentNames : list string)
    (comments : list IssueComment) :
  noEarlyReturn declaredMap approvers minimumApprovals multipleDeploymentNames comments →
  approvalFromCommentsWith declaredMap approvers minimumApprovals
    multipleDeploymentNames comments = Ok (mkResult approvalStatusPending [] None) ∨
  ∃ msg, approvalFromCommentsWith declaredMap approvers minimumApprovals
           multipleDeploymentNames comments = Panic msg.
Proof. intros Hno. apply commentsLoop_no_return. intros; by eapply Hno. Qed.

(** With the map made, it returns Pending. *)
Lemma no_early_return_pending_repaired (approvers : list string)
    (minimumApprovals : Z) (multipleDeploymentNames : list string)
    (comments : list IssueComment) :
  noEarlyReturn (Some ∅) approvers minimumApprovals multipleDeploymentNames comments →
  approvalFromCommentsRepaired comments approvers minimumApprovals
    multipleDeploymentNames = Ok (mkResult approvalStatusPending [] None).
Proof.
  intros [H|[msg H]]%no_early_return_pending_or_panic; [done |].
  destruct (approvalFromCommentsRepaired_total comments approvers minimumApprovals
              multipleDeploymentNames) as [r Hr].
  unfold approvalFromCommentsRepaired in Hr. congruence.
Qed.

(** Without configured deployment names the block is never entered, and
    the source itself returns Pending. *)
Lemma classify_no_names (declaredMap : gomap) (commentBody : string) :
  ∃ v, classify declaredMap [] commentBody = Ok v.
Proof.
  unfold classify, extractDeploymentNames. change (len [] =? 0) with true.
  rewrite andb_false_r. by eexists.
Qed.

Lemma approvalFromComments_no_names_total (comments : list IssueComment)
    (approvers : list string) (minimumApprovals : Z) :
  ∃ r, approvalFromComments comments approvers minimumApprovals [] = Ok r.
Proof.
  unfold approvalFromComments, approvalFromCommentsWith.
  generalize (adjustedMinimum approvers minimumApprovals) as threshold.
  intros threshold. generalize approvers at 2 as remaining.
  induction comments as [|c cs IH]; intros remaining; cbn; [by eexists |].
  assert (Hstep : ∃ ctl, loopBody None approvers [] threshold remaining c = Ok ctl).
  { destruct (approversIndex_cases remaining (GetLogin c)) as [[Hnotin _]|(i & Hi & Hidx)].
    - rewrite (loopBody_skip _ _ _ _ _ _ Hnotin). by eexists.
    - rewrite (loopBody_member _ _ _ _ _ _ _ Hidx Hi).
      destruct (classify_no_names None (GetBody c)) as [v ->]. cbn.
      destruct v; [destruct (len remaining =? _) | ..]; by eexists. }
  destruct Hstep as [[remaining'|r] ->]; cbn; [apply IH | by eexists].
Qed.

Lemma no_early_return_pending_no_names (approvers : list string)
    (minimumApprovals : Z) (comments : list IssueComment) :
  noEarlyReturn None approvers minimumApprovals [] comments →
  approvalFromComments comments approvers minimumApprovals []
  = Ok (mkResult approvalStatusPending [] None).
Proof.
  intros [H|[msg H]]%no_early_return_pending_or_panic; [done |].
  destruct (approvalFromComments_no_names_total comments approvers minimumApprovals)
    as [r Hr].
  unfold approvalFromComments in Hr. congruence.
Qed.

(** An empty list of comments yields Pending. *)
Lemma no_comments_pending (approvers : list string) (minimumApprovals : Z)
    (multipleDeploymentNames : list string) :
  approvalFromComments [] approvers minimumApprovals multipleDeploymentNames
  = Ok (mkResult approvalStatusPending [] None).
Proof. reflexivity. Qed.

(** ** The earlier revision agrees with the present one without names *)

Lemma legacy_loopBody (approvers : list string) (threshold : Z)
    (remaining : list string) (c : IssueComment) :
  Legacy.loopBody approvers threshold remaining c =
    match loopBody None approvers [] threshold remaining c with
    | Ok (Continue remaining') => Ok (Legacy.Continue remaining')
    | Ok (Return r) => Ok (Legacy.Return (status r) (err r))
    | Panic msg => Panic msg
    end.
Proof.
  unfold Legacy.loopBody, loopBody.
  destruct (approversIndex remaining (GetLogin c) <? 0); [done |].
  change (len [] =? 0) with true. rewrite andb_false_r.
  unfold mbind at 1 4. unfold go_bind at 1 4.
  rewrite (isApproved_pair (GetBody c)). destruct (fst (isApproved (GetBody c))).
  - destruct (len remaining =? _); [done |].
    destruct (index remaining (len remaining - 1)) as [x|]; cbn; [|done].
    destruct (setIndex remaining _ x) as [sw|]; cbn; [|done].
    by destruct (sliceTo sw _).
  - rewrite (isDenied_pair (GetBody c)). by destruct (fst (isDenied (GetBody c))).
Qed.

Lemma legacy_commentsLoop (approvers : list string) (threshold : Z)
    (remaining : list string) (comments : list IssueComment) :
  Legacy.commentsLoop approvers threshold remaining comments
  = statusAndError (commentsLoop None approvers [] threshold remaining comments).
Proof.
  revert remaining. induction comments as [|c cs IH]; intros remaining; cbn; [done |].
  rewrite legacy_loopBody.
  destruct (loopBody None approvers [] threshold remaining c) as [[remaining'|r]|msg];
    cbn; [apply IH | done..].
Qed.

(** The earlier revision returns the status and the error the present
    one returns when no deployment names are configured. *)
Lemma legacy_approvalFromComments (comments : list IssueComment)
    (approvers : list string) (minimumApprovals : Z) :
  Legacy.approvalFromComments comments approvers minimumApprovals
  = statusAndError (approvalFromComments comments approvers minimumApprovals []).
Proof. apply legacy_commentsLoop. Qed.

(** ** A decisive result ends the loop *)

(** A result other than Pending without error comes from a return inside
    the loop, and the loop reads no comment after it. *)
Lemma decisive_result_stable (declaredMap : gomap) (approvers : list string)
    (minimumApprovals : Z) (multipleDeploymentNames : list string)
    (comments ext : list IssueComment) (r : result) :
  approvalFromCommentsWith declaredMap approvers minimumApprovals
    multipleDeploymentNames comments = Ok r →
  status r = approvalStatusApproved ∨ status r = approvalStatusDenied ∨ err r ≠ None →
  approvalFromCommentsWith declaredMap approvers minimumApprovals
    multipleDeploymentNames (comments ++ ext) = Ok r.
Proof.
  unfold approvalFromCommentsWith. intros Hr Hdecisive.
  rewrite commentsLoop_app.
  destruct (remainingAfter _ _ _ _ _ comments) as [remaining|] eqn:Hrun; [|done].
  rewrite (remainingAfter_pending _ _ _ _ _ _ _ Hrun) in Hr. injection Hr as <-.
  cbn in Hdecisive. destruct Hdecisive as [?|[?|?]]; done.
Qed.

(** The same for the earlier revision. *)
Lemma legacy_decisive_result_stable (comments ext : list IssueComment)
    (approvers : list string) (minimumApprovals : Z)
    (st : approvalStatus) (e : option error) :
  Legacy.approvalFromComments comments approvers minimumApprovals = Ok (st, e) →
  st = approvalStatusApproved ∨ st = approvalStatusDenied ∨ e ≠ None →
  Legacy.approvalFromComments (comments ++ ext) approvers minimumApprovals = Ok (st, e).
Proof.
  rewrite !legacy_approvalFromComments. unfold approvalFromComments.
  destruct (approvalFromCommentsWith None approvers minimumApprovals [] comments)
    as [r|msg] eqn:Hr; cbn; [|done].
  intros [= <- <-] Hdecisive.
  by rewrite (decisive_result_stable _ _ _ _ _ ext r Hr Hdecisive).
Qed.

(** ** The source, comment by comment *)

Lemma len_eqb_0 {A : Type} (l : list A) : (len l =? 0) = false ↔ l ≠ [].
Proof.
  rewrite Z.eqb_neq. unfold len. destruct l; cbn; split; try done; lia.
Qed.

(** In the source the block for bracketed names has two outcomes only:
    the malformed-syntax error when the bracket pattern is not found, and
    the panic when it is. *)
Lemma deploymentBlock_source (names : list string) (commentBody : string) :
  names ≠ [] → Contains commentBody "[" = true →
  (¬ matchesWithin bracketPattern (deploymentNamesRaw commentBody) ∧
   deploymentBlock None names commentBody
   = Ok (inr (mkResult approvalStatusPending [] (Some errMalformedDeploymentSyntax)))) ∨
  (matchesWithin bracketPattern (deploymentNamesRaw commentBody) ∧
   deploymentBlock None names commentBody = Panic "assignment to entry in nil map").
Proof.
  intros Hnames Hbr.
  destruct (Split_Contains _ _ Hbr) as (p0 & p1 & rest & Hsplit).
  destruct (FindStringSubmatch_sound (deploymentNamesRaw commentBody))
    as [Hnil|(g & Hfound & Hm)].
  - left. split.
    + intros (m & g & Hmg)%FindStringSubmatch_complete. congruence.
    + unfold deploymentBlock. unfold deploymentNamesRaw in Hnil. rewrite Hsplit in *.
      change (nth 1 (p0 :: p1 :: rest) "") with p1 in Hnil.
      change (index (p0 :: p1 :: rest) 0) with (Ok p0).
      change (index (p0 :: p1 :: rest) 1) with (Ok p1).
      unfold mbind, go_bind. by rewrite Hnil.
  - right. split; [done |]. by apply deploymentBlock_nil_map.
Qed.

Lemma classify_source_cases (names : list string) (commentBody : string) (v : verdict) :
  classify None names commentBody = Ok v →
  (v = Approval [] ∧ fst (isApproved commentBody) = true) ∨
  (v = Denial ∧ fst (isApproved commentBody) = false ∧
   fst (isDenied commentBody) = true) ∨
  (v = Neither ∧ fst (isApproved commentBody) = false ∧
   fst (isDenied commentBody) = false ∧
   (Contains commentBody "[" = false ∨ names = [])) ∨
  (v = Rejected (mkResult approvalStatusPending [] (Some errMalformedDeploymentSyntax)) ∧
   names ≠ [] ∧ Contains commentBody "[" = true ∧
   ¬ matchesWithin bracketPattern (deploymentNamesRaw commentBody)).
Proof.
  unfold classify, extractDeploymentNames.
  destruct (Contains commentBody "[") eqn:Hbr; cbn [andb].
  - destruct (len names =? 0) eqn:Hlen; cbn [negb].
    + cbn. assert (names = []) as -> by (destruct names; [done | discriminate]).
      destruct (fst (isApproved commentBody)) eqn:Ha.
      { by rewrite (isApproved_no_bracket _ Ha) in Hbr. }
      destruct (fst (isDenied commentBody)) eqn:Hd.
      { by rewrite (isDenied_no_bracket _ Hd) in Hbr. }
      intros [= <-]. right. right. left. auto.
    + apply len_eqb_0 in Hlen.
      destruct (deploymentBlock_source _ _ Hlen Hbr) as [[Hno ->]|[Hm ->]]; cbn; [|done].
      intros [= <-]. right. right. right. auto.
  - cbn. destruct (fst (isApproved commentBody)) eqn:Ha.
    { intros [= <-]. by left. }
    destruct (fst (isDenied commentBody)) eqn:Hd; intros [= <-].
    + right. left. auto.
    + right. right. left. auto.
Qed.


Section SourceLoop.

Variable approvers : list string.
Variable multipleDeploymentNames : list string.
Variable threshold : Z.

Local Abbreviation body := (loopBody None approvers multipleDeploymentNames threshold).
Local Abbreviation loop := (commentsLoop None approvers multipleDeploymentNames threshold).
Local Abbreviation after :=
  (remainingAfter None approvers multipleDeploymentNames threshold).

Lemma loopBody_source_return (remaining : list string) (c : IssueComment) (r : result) :
  body remaining c = Ok (Return r) →
  GetLogin c ∈ remaining ∧
  ((r = mkResult approvalStatusApproved [] None ∧
    fst (isApproved (GetBody c)) = true ∧
    len remaining = quorumLength approvers threshold) ∨
   (r = mkResult approvalStatusDenied [] None ∧ fst (isDenied (GetBody c)) = true) ∨
   (r = mkResult approvalStatusPending [] (Some errMalformedDeploymentSyntax) ∧
    multipleDeploymentNames ≠ [] ∧ Contains (GetBody c) "[" = true ∧
    ¬ matchesWithin bracketPattern (deploymentNamesRaw (GetBody c)))).
Proof.
  destruct (approversIndex_cases remaining (GetLogin c)) as [[Hnotin _]|(i & Hi & Hidx)].
  { by rewrite (loopBody_skip _ _ _ _ _ _ Hnotin). }
  rewrite (loopBody_member _ _ _ _ _ _ _ Hidx Hi).
  destruct (classify None multipleDeploymentNames (GetBody c)) as [v|msg] eqn:Hv; [|done].
  intros Hret. split; [by eapply list_elem_of_lookup_2 |].
  apply classify_source_cases in Hv
    as [[-> Ha]|[(-> & _ & Hd)|[(-> & _)|(-> & Hn & Hbr & Hno)]]]; cbn in Hret.
  - destruct (len remaining =? _) eqn:Hq; [|done]. injection Hret as <-.
    left. split_and!; [done..|]. by apply Z.eqb_eq.
  - injection Hret as <-. right. left. auto.
  - done.
  - injection Hret as <-. right. right. auto.
Qed.


Lemma loopBody_source_continue (remaining remaining' : list string) (c : IssueComment) :
  body remaining c = Ok (Continue remaining') →
  remaining' = remaining ∨
  ∃ i, remaining !! i = Some (GetLogin c) ∧ remaining' = swapRemove remaining i ∧
       fst (isApproved (GetBody c)) = true.
Proof.
  destruct (approversIndex_cases remaining (GetLogin c)) as [[Hnotin _]|(i & Hi & Hidx)].
  { rewrite (loopBody_skip _ _ _ _ _ _ Hnotin). intros [= <-]. by left. }
  rewrite (loopBody_member _ _ _ _ _ _ _ Hidx Hi).
  destruct (classify None multipleDeploymentNames (GetBody c)) as [v|msg] eqn:Hv; [|done].
  apply classify_source_cases in Hv
    as [[-> Ha]|[(-> & _ & Hd)|[(-> & _)|(-> & Hn & Hbr & Hno)]]]; cbn; try done.
  - destruct (len remaining =? _); [done |]. intros [= <-]. right. eauto.
  - intros [= <-]. by left.
Qed.

End SourceLoop.

(** ** Where the loop ends *)

Section LoopEnd.

Variable declaredMap : gomap.
Variable approvers : list string.
Variable multipleDeploymentNames : list string.
Variable threshold : Z.

Local Abbreviation body :=
  (loopBody declaredMap approvers multipleDeploymentNames threshold).
Local Abbreviation loop :=
  (commentsLoop declaredMap approvers multipleDeploymentNames threshold).
Local Abbreviation after :=
  (remainingAfter declaredMap approvers multipleDeploymentNames threshold).

(** A result comes from the end of the loop or from the return of one
    iteration, reached through iterations that all went on. *)
Lemma commentsLoop_result (remaining : list string) (comments : list IssueComment)
    (r : result) :
  loop remaining comments = Ok r →
  (r = mkResult approvalStatusPending [] None ∧ is_Some (after remaining comments)) ∨
  ∃ pre c post remaining',
    comments = pre ++ c :: post ∧ after remaining pre = Some remaining' ∧
    body remaining' c = Ok (Return r).
Proof.
  revert remaining. induction comments as [|c cs IH]; intros remaining; cbn.
  - intros [= <-]. left. eauto.
  - destruct (body remaining c) as [[remaining1|r1]|msg] eqn:Hstep; cbn; [| |done].
    + intros [[-> Hrun]|(pre & c' & post & remaining' & -> & Hrun & Hret)]%IH.
      * by left.
      * right. exists (c :: pre), c', post, remaining'. cbn. by rewrite Hstep.
    + intros [= ->]. right. by exists [], c, cs, remaining.
Qed.


(** The slice only loses elements. *)
Lemma remainingAfter_submseteq (remaining remaining' : list string)
    (comments : list IssueComment) :
  after remaining comments = Some remaining' → remaining' ⊆+ remaining.
Proof.
  revert remaining. induction comments as [|c cs IH]; intros remaining; cbn.
  - by intros [= <-].
  - destruct (body remaining c) as [[remaining1|r]|msg] eqn:Hb; try done.
    intros H. etrans; [by apply IH |].
    apply loopBody_continue in Hb as [->|(i & Hi & ->)]; [done |].
    rewrite swapRemove_perm by (by eapply lookup_lt_Some).
    apply sublist_submseteq, sublist_delete.
Qed.

End LoopEnd.

(** ** The comparison with the threshold *)

(** Within [int] the comparison of the loop succeeds for one threshold
    only: wrap-around does not let another threshold through. *)
Lemma quorumLength_inv (approvers : list string) (threshold q : Z) :
  - 2 ^ 63 ≤ threshold < 2 ^ 63 →
  0 ≤ len approvers + 1 - q < 2 ^ 63 →
  quorumLength approvers threshold = q →
  threshold = len approvers + 1 - q.
Proof.
  unfold quorumLength, int_add, int_sub, wrap64.
  change (2 ^ 63) with 9223372036854775808.
  change (2 ^ 64) with 18446744073709551616.
  generalize (len approvers) as n. intros n Ht Hq Heq.
  Z.div_mod_to_equations. lia.
Qed.

(** * The claims *)

(** ** Claims settled on the source as it is *)

(** C4. When the list of deployment names is not empty and the loop
    reaches a comment of an approver still in [remainingApprovers] whose
    body holds an opening bracket and whose bracketed part matches the
    bracket pattern, [approvalFromComments] does not return: it panics on
    the write to the nil map [validDeploymentNamesMap], before any
    Approved result or unknown-name error can be produced. *)
Theorem nil_map_write_faults (pre post : list IssueComment) (c : IssueComment)
    (approvers : list string) (minimumApprovals : Z)
    (multipleDeploymentNames remaining : list string) :
  multipleDeploymentNames ≠ [] →
  remainingApproversAfter pre approvers minimumApprovals multipleDeploymentNames
    = Some remaining →
  GetLogin c ∈ remaining →
  Contains (GetBody c) "[" = true →
  matchesWithin bracketPattern (deploymentNamesRaw (GetBody c)) →
  approvalFromComments (pre ++ c :: post) approvers minimumApprovals
    multipleDeploymentNames = Panic "assignment to entry in nil map".
Proof.
  intros Hnames Hpre Hin Hbr Hm.
  unfold approvalFromComments, approvalFromCommentsWith, remainingApproversAfter in *.
  rewrite commentsLoop_app, Hpre. cbn [commentsLoop].
  destruct (approversIndex_elem_of _ _ Hin) as (i & Hi & Hidx).
  rewrite (loopBody_member _ _ _ _ _ _ _ Hidx Hi).
  unfold classify, extractDeploymentNames. rewrite Hbr.
  assert (Hlen : (len multipleDeploymentNames =? 0) = false).
  { apply Z.eqb_neq. unfold len. destruct multipleDeploymentNames; [done | cbn; lia]. }
  rewrite Hlen. cbn [negb andb].
  by rewrite (deploymentBlock_nil_map _ _ Hnames Hbr Hm).
Qed.

Lemma nil_map_write_faults_witness :
  approvalFromComments
    ([mkComment "alice" "lgtm"] ++ mkComment "bob" "approve[blue,green]" :: [])
    ["alice"; "bob"] 2 ["blue"; "green"]
  = Panic "assignment to entry in nil map".
Proof.
  apply (nil_map_write_faults [mkComment "alice" "lgtm"] []
           (mkComment "bob" "approve[blue,green]") ["alice"; "bob"] 2
           ["blue"; "green"] ["bob"]).
  - discriminate.
  - vm_compute. reflexivity.
  - constructor.
  - vm_compute. reflexivity.
  - exists "", "[blue,green]", "". split; [reflexivity |].
    apply fullMatch_lang. vm_compute. reflexivity.
Defined.

(** C5. [isApproved] yields true exactly for a body made of one of the
    approval words in any case, then any number of [.] and [!], then any
    number of newlines; [isDenied] yields true exactly for a body made of
    one of the denial words in any case, then at most one [.] or [!].
    Neither reports an error. The match is of the whole body, never of a
    part of it: a body that ends or starts in a blank (space, tab,
    carriage return) is no approval and no denial, and a body that ends
    in a newline is no denial. *)
Theorem classifier_matches_whole_body :
  (∀ body, isApproved body = (true, None) ↔ approvalShape body) ∧
  (∀ body, isDenied body = (true, None) ↔ denialShape body) ∧
  (∀ body, snd (isApproved body) = None ∧ snd (isDenied body) = None) ∧
  (∀ body c, isBlank c = true →
     fst (isApproved (body +:+ String c "")) = false ∧
     fst (isDenied (body +:+ String c "")) = false ∧
     fst (isApproved (String c body)) = false ∧
     fst (isDenied (String c body)) = false) ∧
  (∀ body, fst (isDenied (body +:+ String newline "")) = false).
Proof.
  split_and!.
  - intros body. rewrite <- isApproved_shape.
    pose proof (isApproved_pair body) as Hp.
    destruct (isApproved body) as [b e]. cbn in *. injection Hp as ->.
    split; [by intros [= ->] | by intros ->].
  - intros body. rewrite <- isDenied_shape.
    pose proof (isDenied_pair body) as Hp.
    destruct (isDenied body) as [b e]. cbn in *. injection Hp as ->.
    split; [by intros [= ->] | by intros ->].
  - intros body. split.
    + apply (isApprovedLoop_err approvedWords).
    + apply (isDeniedLoop_err deniedWords).
  - intros body c Hc. split_and!.
    + by apply isApproved_trailing_blank.
    + apply isDenied_trailing_blank. by left.
    + apply isApproved_leading_blank. by left.
    + apply isDenied_leading_blank. by left.
  - intros body. apply isDenied_trailing_blank. by right.
Qed.

(** C6. A comment whose author is not in the configured list of approvers
    can be inserted or removed at any position without changing what
    [approvalFromComments] does, whatever its body: the comment is skipped
    before its body is read. *)
Theorem outsider_comment_has_no_effect (pre post : list IssueComment)
    (c : IssueComment) (approvers : list string) (minimumApprovals : Z)
    (multipleDeploymentNames : list string) :
  GetLogin c ∉ approvers →
  approvalFromComments (pre ++ c :: post) approvers minimumApprovals
    multipleDeploymentNames
  = approvalFromComments (pre ++ post) approvers minimumApprovals
      multipleDeploymentNames.
Proof. intros Hnotin. by apply commentsLoop_skip. Qed.

Lemma outsider_comment_has_no_effect_witness :
  approvalFromComments
    ([mkComment "alice" "lgtm"] ++ mkComment "mallory" "approve[blue"
       :: [mkComment "bob" "yes"])
    ["alice"; "bob"] 2 ["blue"]
  = approvalFromComments ([mkComment "alice" "lgtm"] ++ [mkComment "bob" "yes"])
      ["alice"; "bob"] 2 ["blue"].
Proof.
  apply (outsider_comment_has_no_effect [mkComment "alice" "lgtm"]
           [mkComment "bob" "yes"] (mkComment "mallory" "approve[blue")
           ["alice"; "bob"] 2 ["blue"]).
  intros H. apply list_elem_of_In in H. cbn in H.
  destruct H as [H|[H|[]]]; discriminate H.
Defined.

(** C8. With [minimumApprovals] equal to zero [approvalFromComments] does
    exactly what it does with [minimumApprovals] equal to the number of
    approvers. *)
Theorem zero_minimum_requires_all (comments : list IssueComment)
    (approvers multipleDeploymentNames : list string) :
  approvalFromComments comments approvers 0 multipleDeploymentNames
  = approvalFromComments comments approvers (len approvers) multipleDeploymentNames.
Proof.
  unfold approvalFromComments, approvalFromCommentsWith, adjustedMinimum.
  change (0 =? 0) with true. cbv iota.
  by destruct (len approvers =? 0).
Qed.

(** C10. Once [approvalFromComments] has returned Approved, Denied or an
    error for a list of comments, it returns the same status, names and
    error for that list followed by any further comments. *)
Theorem verdict_stable_under_newer_comments (comments ext : list IssueComment)
    (approvers : list string) (minimumApprovals : Z)
    (multipleDeploymentNames : list string) (r : result) :
  approvalFromComments comments approvers minimumApprovals multipleDeploymentNames
    = Ok r →
  status r = approvalStatusApproved ∨ status r = approvalStatusDenied ∨ err r ≠ None →
  approvalFromComments (comments ++ ext) approvers minimumApprovals
    multipleDeploymentNames = Ok r.
Proof.
  unfold approvalFromComments, approvalFromCommentsWith. intros Hr Hdecisive.
  rewrite commentsLoop_app.
  destruct (remainingAfter _ _ _ _ _ comments) as [remaining|] eqn:Hrun; [|done].
  rewrite (remainingAfter_pending _ _ _ _ _ _ _ Hrun) in Hr. injection Hr as <-.
  cbn in Hdecisive. destruct Hdecisive as [?|[?|?]]; done.
Qed.

Lemma verdict_stable_under_newer_comments_witness :
  approvalFromComments
    ([mkComment "alice" "yes"; mkComment "bob" "no"] ++ [mkComment "carol" "lgtm"])
    ["alice"; "bob"; "carol"] 3 []
  = Ok (mkResult approvalStatusDenied [] None).
Proof.
  apply (verdict_stable_under_newer_comments
           [mkComment "alice" "yes"; mkComment "bob" "no"] [mkComment "carol" "lgtm"]
           ["alice"; "bob"; "carol"] 3 [] (mkResult approvalStatusDenied [] None)).
  - vm_compute. reflexivity.
  - right. left. reflexivity.
Defined.

(** C7. With distinct approvers, once the approval of an author has been
    counted (the loop went on and the author left [remainingApprovers]),
    the author is no longer in the slice, the slice is one shorter, and a
    later comment of that author, a second approval included, can be
    removed without changing what [approvalFromComments] does: it is
    skipped, not counted again. *)
Theorem counted_approver_is_not_counted_again (pre : list IssueComment)
    (c1 : IssueComment) (approvers : list string) (minimumApprovals : Z)
    (multipleDeploymentNames remaining remaining' : list string) :
  NoDup approvers →
  remainingApproversAfter pre approvers minimumApprovals multipleDeploymentNames
    = Some remaining →
  GetLogin c1 ∈ remaining →
  fst (isApproved (GetBody c1)) = true →
  remainingApproversAfter (pre ++ [c1]) approvers minimumApprovals
    multipleDeploymentNames = Some remaining' →
  (GetLogin c1 ∉ remaining') ∧
  S (length remaining') = length remaining ∧
  ∀ (mid post : list IssueComment) (c2 : IssueComment),
    GetLogin c2 = GetLogin c1 →
    approvalFromComments (pre ++ c1 :: mid ++ c2 :: post) approvers
      minimumApprovals multipleDeploymentNames
    = approvalFromComments (pre ++ c1 :: mid ++ post) approvers
        minimumApprovals multipleDeploymentNames.
Proof.
  intros Hnd Hpre Hin Happ Hpre'.
  unfold remainingApproversAfter, approvalFromComments, approvalFromCommentsWith in *.
  pose proof (remainingAfter_NoDup _ _ _ _ _ _ _ Hpre Hnd) as Hnd'.
  destruct (approversIndex_elem_of _ _ Hin) as (i & Hi & Hidx).
  assert (Hrem : remaining' = swapRemove remaining i).
  { rewrite remainingAfter_app, Hpre in Hpre'. cbn [remainingAfter] in Hpre'.
    rewrite (loopBody_member _ _ _ _ _ _ _ Hidx Hi) in Hpre'.
    rewrite (classify_approved _ _ _ Happ) in Hpre'. cbn in Hpre'.
    destruct (len remaining =? _); [done |]. by injection Hpre' as <-. }
  subst remaining'. split_and!.
  - by apply swapRemove_removes.
  - apply swapRemove_length. by eapply lookup_lt_Some.
  - intros mid post c2 Hsame.
    rewrite !(cons_middle c1 pre), !app_assoc, <- !(app_assoc (pre ++ [c1]) mid).
    rewrite !(commentsLoop_app _ _ _ _ _ (pre ++ [c1])), Hpre'.
    apply commentsLoop_skip. rewrite Hsame. by apply swapRemove_removes.
Qed.

Lemma counted_approver_is_not_counted_again_witness :
  ("alice" ∉ ["carol"; "bob"]) ∧
  S (length ["carol"; "bob"]) = length ["alice"; "bob"; "carol"] ∧
  ∀ (mid post : list IssueComment) (c2 : IssueComment),
    GetLogin c2 = "alice" →
    approvalFromComments ([] ++ mkComment "alice" "approve" :: mid ++ c2 :: post)
      ["alice"; "bob"; "carol"] 2 []
    = approvalFromComments ([] ++ mkComment "alice" "approve" :: mid ++ post)
        ["alice"; "bob"; "carol"] 2 [].
Proof.
  apply (counted_approver_is_not_counted_again [] (mkComment "alice" "approve")
           ["alice"; "bob"; "carol"] 2 [] ["alice"; "bob"; "carol"] ["carol"; "bob"]).
  - apply NoDup_ListNoDup. repeat constructor; cbn; intros H;
      repeat (destruct H as [H|H]; [discriminate H |]); exact H.
  - vm_compute. reflexivity.
  - constructor.
  - vm_compute. reflexivity.
  - vm_compute. reflexivity.
Defined.

(** ** Claims the source departs from *)

(** C2, as stated, fails in two ways. A denial written by an approver
    whose approval was already counted is skipped: with approvers alice
    and bob, two approvals required and the comments (alice, approve),
    (alice, no), the denial comes from a member of the list before the
    quorum is reached, and yet the call returns Pending, not Denied. And
    an extraction error ends the call before a later denial is read: with
    the name blue configured and the comments (alice, approve[blue), (bob,
    no), the call returns Pending with the malformed-syntax error. *)
Lemma denial_before_quorum_not_always_denied :
  (let approvers := ["alice"; "bob"] in
   let pre := [mkComment "alice" "approve"] in
   let c := mkComment "alice" "no" in
   GetLogin c ∈ approvers ∧
   fst (isDenied (GetBody c)) = true ∧
   approvalFromComments pre approvers 2 []
     = Ok (mkResult approvalStatusPending [] None) ∧
   approvalFromComments (pre ++ [c]) approvers 2 []
     = Ok (mkResult approvalStatusPending [] None) ∧
   approvalFromComments (pre ++ [c]) approvers 2 []
     ≠ Ok (mkResult approvalStatusDenied [] None)) ∧
  (let approvers := ["alice"; "bob"] in
   let pre := [mkComment "alice" "approve[blue"] in
   let c := mkComment "bob" "no" in
   GetLogin c ∈ approvers ∧
   fst (isDenied (GetBody c)) = true ∧
   approvalFromComments (pre ++ [c]) approvers 2 ["blue"]
     = Ok (mkResult approvalStatusPending [] (Some errMalformedDeploymentSyntax)) ∧
   approvalFromComments (pre ++ [c]) approvers 2 ["blue"]
     ≠ Ok (mkResult approvalStatusDenied [] None)).
Proof.
  cbn zeta. split; split_and!.
  - apply list_elem_of_here.
  - vm_compute. reflexivity.
  - vm_compute. reflexivity.
  - vm_compute. reflexivity.
  - vm_compute. discriminate.
  - apply list_elem_of_further, list_elem_of_here.
  - vm_compute. reflexivity.
  - vm_compute. reflexivity.
  - vm_compute. discriminate.
Qed.

(** C2, amended. When the loop reaches a comment (no earlier comment has
    ended the call) whose author is still in [remainingApprovers] and whose
    body is a denial, [approvalFromComments] returns Denied with no names
    and no error, whatever follows and however many approvals were counted
    before. *)
Theorem denial_of_remaining_approver_denies (pre post : list IssueComment)
    (c : IssueComment) (approvers : list string) (minimumApprovals : Z)
    (multipleDeploymentNames remaining : list string) :
  remainingApproversAfter pre approvers minimumApprovals multipleDeploymentNames
    = Some remaining →
  GetLogin c ∈ remaining →
  fst (isDenied (GetBody c)) = true →
  approvalFromComments (pre ++ c :: post) approvers minimumApprovals
    multipleDeploymentNames = Ok (mkResult approvalStatusDenied [] None).
Proof.
  intros Hpre Hin Hden.
  unfold remainingApproversAfter, approvalFromComments, approvalFromCommentsWith in *.
  rewrite commentsLoop_app, Hpre. cbn [commentsLoop].
  destruct (approversIndex_elem_of _ _ Hin) as (i & Hi & Hidx).
  rewrite (loopBody_member _ _ _ _ _ _ _ Hidx Hi).
  by rewrite (classify_denied _ _ _ Hden).
Qed.

Lemma denial_of_remaining_approver_denies_witness :
  approvalFromComments
    ([mkComment "alice" "yes"] ++ mkComment "bob" "no" :: [mkComment "carol" "lgtm"])
    ["alice"; "bob"; "carol"] 3 ["blue"]
  = Ok (mkResult approvalStatusDenied [] None).
Proof.
  apply (denial_of_remaining_approver_denies [mkComment "alice" "yes"]
           [mkComment "carol" "lgtm"] (mkComment "bob" "no")
           ["alice"; "bob"; "carol"] 3 ["blue"] ["carol"; "bob"]).
  - vm_compute. reflexivity.
  - constructor. constructor.
  - vm_compute. reflexivity.
Defined.

(** C3. With the configured names blue and green, the source does not
    reach the results the claim gives for a well-formed bracketed list: on
    the body approve[blue,green] and on the body approve[blue,red] the call
    panics on the write to the nil map. Only the unbalanced body
    approve[blue returns, with the malformed-syntax error, Pending and no
    names. With the map made before it is written, the same function body
    returns what the claim says in all three cases. *)
Theorem deployment_names_reach_nil_map :
  let approvers := ["alice"] in
  let names := ["blue"; "green"] in
  approvalFromComments [mkComment "alice" "approve[blue,green]"] approvers 1 names
    = Panic "assignment to entry in nil map" ∧
  approvalFromComments [mkComment "alice" "approve[blue,red]"] approvers 1 names
    = Panic "assignment to entry in nil map" ∧
  approvalFromComments [mkComment "alice" "approve[blue"] approvers 1 names
    = Ok (mkResult approvalStatusPending [] (Some errMalformedDeploymentSyntax)) ∧
  approvalFromCommentsRepaired [mkComment "alice" "approve[blue,green]"] approvers 1 names
    = Ok (mkResult approvalStatusApproved ["blue"; "green"] None) ∧
  approvalFromCommentsRepaired [mkComment "alice" "approve[blue,red]"] approvers 1 names
    = Ok (mkResult approvalStatusPending [] (Some errUnknownDeploymentName)) ∧
  approvalFromCommentsRepaired [mkComment "alice" "approve[blue"] approvers 1 names
    = Ok (mkResult approvalStatusPending [] (Some errMalformedDeploymentSyntax)).
Proof. cbn zeta. split_and!; vm_compute; reflexivity. Qed.

(** C1. The premises of the quorum do not make the source return
    Approved when deployment names are configured and a comment the loop
    reads carries a bracketed list. With approver alice, one approval
    required and the name blue configured, the single comment
    approve[blue] of alice is the decisive approval, and the call panics
    on the write to the nil map. With approvers alice and bob, the comment
    "hello [blue]" of alice (no approval, no denial, a list of known
    names) before the approval of bob makes the call panic as well. In
    both cases the premises hold for the classifier of the spec, and the
    function with the map made returns Approved. *)
Theorem quorum_reaches_nil_map :
  (quorumPremises (Some ∅) ["alice"] 1 ["blue"]
     [] (mkComment "alice" "approve[blue]") ["blue"] ∧
   approvalFromComments [mkComment "alice" "approve[blue]"] ["alice"] 1 ["blue"]
     = Panic "assignment to entry in nil map" ∧
   approvalFromCommentsRepaired [mkComment "alice" "approve[blue]"] ["alice"] 1 ["blue"]
     = Ok (mkResult approvalStatusApproved ["blue"] None)) ∧
  (quorumPremises (Some ∅) ["alice"; "bob"] 1 ["blue"]
     [mkComment "alice" "hello [blue]"] (mkComment "bob" "approve") [] ∧
   approvalFromComments [mkComment "alice" "hello [blue]"; mkComment "bob" "approve"]
     ["alice"; "bob"] 1 ["blue"]
     = Panic "assignment to entry in nil map" ∧
   approvalFromCommentsRepaired
     [mkComment "alice" "hello [blue]"; mkComment "bob" "approve"]
     ["alice"; "bob"] 1 ["blue"]
     = Ok (mkResult approvalStatusApproved [] None)).
Proof.
  assert (Hnd2 : NoDup ["alice"; "bob"]).
  { apply NoDup_cons. split; [|apply NoDup_singleton].
    intros H%list_elem_of_singleton. discriminate H. }
  split; (split; [|split; vm_compute; reflexivity]).
  - unfold quorumPremises. split_and!.
    + apply NoDup_singleton.
    + done.
    + done.
    + done.
    + apply NoDup_nil_2.
    + reflexivity.
    + intros j d Hj. destruct j; discriminate Hj.
    + apply list_elem_of_here.
    + apply not_elem_of_nil.
    + vm_compute. reflexivity.
  - unfold quorumPremises. split_and!.
    + exact Hnd2.
    + done.
    + done.
    + done.
    + vm_compute. apply NoDup_nil_2.
    + vm_compute. reflexivity.
    + intros [|j] d; [|done]. intros [= <-] _ _. left. vm_compute. reflexivity.
    + apply list_elem_of_further, list_elem_of_here.
    + vm_compute. apply not_elem_of_nil.
    + vm_compute. reflexivity.
Qed.

(** C9. That no comment makes the loop return does not make the source
    return Pending: with approver alice and the name blue configured, the
    single comment "hello [blue]" of alice completes no quorum, is no
    denial and raises no extraction error, and the call panics on the
    write to the nil map instead of running out of comments. With the map
    made the same call returns Pending without names and without error.
    An empty list of comments does yield Pending. *)
Theorem exhausted_loop_reaches_nil_map :
  noEarlyReturn None ["alice"] 1 ["blue"] [mkComment "alice" "hello [blue]"] ∧
  noEarlyReturn (Some ∅) ["alice"] 1 ["blue"] [mkComment "alice" "hello [blue]"] ∧
  approvalFromComments [mkComment "alice" "hello [blue]"] ["alice"] 1 ["blue"]
    = Panic "assignment to entry in nil map" ∧
  approvalFromCommentsRepaired [mkComment "alice" "hello [blue]"] ["alice"] 1 ["blue"]
    = Ok (mkResult approvalStatusPending [] None) ∧
  approvalFromComments [] ["alice"] 1 ["blue"]
    = Ok (mkResult approvalStatusPending [] None).
Proof.
  split_and!.
  - intros [|c' pre] post c remaining r Heq; [|by destruct pre].
    injection Heq as <- <-. intros [= <-]. vm_compute. discriminate.
  - intros [|c' pre] post c remaining r Heq; [|by destruct pre].
    injection Heq as <- <-. intros [= <-]. vm_compute. discriminate.
  - vm_compute. reflexivity.
  - vm_compute. reflexivity.
  - reflexivity.
Qed.


(** * Further properties of the source *)

(** ** What [approvalFromComments] returns, and why *)

(** From any state of the loop of the source with distinct remaining
    approvers: an Approved result was preceded by approvals of distinct
    remaining approvers, as many as the slice is longer than the length
    at which an approval returns, plus the decisive one. *)
Lemma commentsLoop_approved_authors (approvers multipleDeploymentNames : list string)
    (threshold : Z) (comments : list IssueComment) (remaining : list string)
    (r : result) :
  NoDup remaining →
  commentsLoop None approvers multipleDeploymentNames threshold remaining comments
    = Ok r →
  status r = approvalStatusApproved →
  ∃ authors : list string,
    NoDup authors ∧ authors ⊆ remaining ∧
    (∀ a, a ∈ authors →
       ∃ c, c ∈ comments ∧ GetLogin c = a ∧ fst (isApproved (GetBody c)) = true) ∧
    len authors = len remaining - quorumLength approvers threshold + 1.
Proof.
  revert remaining. induction comments as [|c cs IH]; intros remaining Hnd; cbn.
  { intros [= <-]. done. }
  destruct (loopBody None approvers multipleDeploymentNames threshold remaining c)
    as [[remaining1|r1]|msg] eqn:Hstep; cbn; [| |done].
  - intros Hloop Hst.
    apply loopBody_source_continue in Hstep as [->|(i & Hi & -> & Ha)].
    + destruct (IH _ Hnd Hloop Hst) as (authors & H1 & H2 & H3 & H4).
      exists authors. split_and!; try done.
      intros a (c' & Hc' & Hrest)%H3. exists c'. split; [by right | done].
    + pose proof (lookup_lt_Some _ _ _ Hi) as Hlt.
      destruct (IH _ (swapRemove_NoDup _ _ Hlt Hnd) Hloop Hst)
        as (authors & H1 & H2 & H3 & H4).
      exists (GetLogin c :: authors). split_and!.
      * apply NoDup_cons. split; [|done].
        intros Hin%H2. by apply (swapRemove_removes _ _ _ Hi Hnd).
      * intros a [->|Hin]%elem_of_cons; [by eapply list_elem_of_lookup_2 |].
        by eapply swapRemove_subseteq, H2.
      * intros a [->|Hin]%elem_of_cons.
        -- exists c. split; [left | done].
        -- destruct (H3 a Hin) as (c' & Hc' & Hrest). exists c'. split; [by right | done].
      * pose proof (swapRemove_length _ _ Hlt). unfold len in *. cbn [length]. lia.
  - intros [= ->] Hst.
    apply loopBody_source_return in Hstep
      as [Hin [(-> & Ha & Hq)|[(-> & _)|(-> & _)]]]; [|done..].
    exists [GetLogin c]. split_and!.
    + apply NoDup_singleton.
    + by intros a ->%list_elem_of_singleton.
    + intros a ->%list_elem_of_singleton. exists c. split; [left | done].
    + unfold len in *. cbn. lia.
Qed.

(** X1. Whatever the input, a call of [approvalFromComments] that returns
    gives one of four results: Pending, Approved or Denied, each without
    names and without error, or Pending with the malformed-syntax error,
    the last only when deployment names are configured. It never returns
    deployment names and never the unknown-name error. *)
Theorem source_returns_four_results (comments : list IssueComment)
    (approvers : list string) (minimumApprovals : Z)
    (multipleDeploymentNames : list string) (r : result) :
  approvalFromComments comments approvers minimumApprovals multipleDeploymentNames
    = Ok r →
  r = mkResult approvalStatusPending [] None ∨
  r = mkResult approvalStatusApproved [] None ∨
  r = mkResult approvalStatusDenied [] None ∨
  (r = mkResult approvalStatusPending [] (Some errMalformedDeploymentSyntax) ∧
   multipleDeploymentNames ≠ []).
Proof.
  unfold approvalFromComments, approvalFromCommentsWith.
  intros [[-> _]|(pre & c & post & remaining & _ & _ & Hret)]%commentsLoop_result.
  - by left.
  - apply loopBody_source_return in Hret
      as [_ [(-> & _)|[(-> & _)|(-> & Hn & _)]]]; auto.
Qed.

Lemma source_returns_four_results_witness :
  mkResult approvalStatusDenied [] None = mkResult approvalStatusPending [] None ∨
  mkResult approvalStatusDenied [] None = mkResult approvalStatusApproved [] None ∨
  mkResult approvalStatusDenied [] None = mkResult approvalStatusDenied [] None ∨
  (mkResult approvalStatusDenied [] None
     = mkResult approvalStatusPending [] (Some errMalformedDeploymentSyntax) ∧
   ["blue"] ≠ []).
Proof.
  apply (source_returns_four_results
           [mkComment "alice" "yes"; mkComment "bob" "Deny!"]
           ["alice"; "bob"] 0 ["blue"]).
  vm_compute. reflexivity.
Defined.



(** X3. With distinct approvers and a threshold within [int], Approved is
    returned only on a quorum: there are as many distinct approvers as
    the threshold in force ([minimumApprovals], or the number of approvers
    when it is zero), each the author of a comment whose body is an
    approval. *)
Theorem approved_only_on_quorum (comments : list IssueComment)
    (approvers : list string) (minimumApprovals : Z)
    (multipleDeploymentNames : list string) (r : result) :
  NoDup approvers →
  len approvers < 2 ^ 63 →
  - 2 ^ 63 ≤ minimumApprovals < 2 ^ 63 →
  approvalFromComments comments approvers minimumApprovals multipleDeploymentNames
    = Ok r →
  status r = approvalStatusApproved →
  ∃ authors : list string,
    NoDup authors ∧ authors ⊆ approvers ∧
    len authors = adjustedMinimum approvers minimumApprovals ∧
    ∀ a, a ∈ authors →
      ∃ c, c ∈ comments ∧ GetLogin c = a ∧ fst (isApproved (GetBody c)) = true.
Proof.
  intros Hnd Hlen Hm Hr Hst. unfold approvalFromComments, approvalFromCommentsWith in Hr.
  destruct (commentsLoop_approved_authors _ _ _ _ _ _ Hnd Hr Hst)
    as (authors & H1 & H2 & H3 & H4).
  exists authors. split_and!; try done.
  assert (Hle : len authors ≤ len approvers).
  { unfold len. apply inj_le, submseteq_length, NoDup_submseteq; done. }
  assert (Hadj : - 2 ^ 63 ≤ adjustedMinimum approvers minimumApprovals < 2 ^ 63).
  { unfold adjustedMinimum. destruct (minimumApprovals =? 0); unfold len in *; lia. }
  rewrite (quorumLength_inv approvers (adjustedMinimum approvers minimumApprovals)
             (len approvers + 1 - len authors) Hadj); unfold len in *; lia.
Qed.

Lemma approved_only_on_quorum_witness :
  ∃ authors : list string,
    NoDup authors ∧ authors ⊆ ["alice"; "bob"; "carol"] ∧
    len authors = adjustedMinimum ["alice"; "bob"; "carol"] 2 ∧
    ∀ a, a ∈ authors →
      ∃ c, c ∈ [mkComment "alice" "lgtm"; mkComment "dave" "approved";
                mkComment "bob" "approve"] ∧
           GetLogin c = a ∧ fst (isApproved (GetBody c)) = true.
Proof.
  apply (approved_only_on_quorum
           [mkComment "alice" "lgtm"; mkComment "dave" "approved";
            mkComment "bob" "approve"]
           ["alice"; "bob"; "carol"] 2 [] (mkResult approvalStatusApproved [] None)).
  - apply NoDup_ListNoDup. repeat constructor; cbn; intros H;
      repeat (destruct H as [H|H]; [discriminate H |]); exact H.
  - vm_compute. reflexivity.
  - split; [vm_compute; discriminate | vm_compute; reflexivity].
  - vm_compute. reflexivity.
  - reflexivity.
Defined.

(** X4. Denied is returned only for a denial: the comments split at a
    comment that the loop reaches with its author still in
    [remainingApprovers] and whose body is a denial. *)
Theorem denied_only_on_denial (comments : list IssueComment)
    (approvers : list string) (minimumApprovals : Z)
    (multipleDeploymentNames : list string) (r : result) :
  approvalFromComments comments approvers minimumApprovals multipleDeploymentNames
    = Ok r →
  status r = approvalStatusDenied →
  ∃ pre c post remaining,
    comments = pre ++ c :: post ∧
    remainingApproversAfter pre approvers minimumApprovals multipleDeploymentNames
      = Some remaining ∧
    GetLogin c ∈ remaining ∧ GetLogin c ∈ approvers ∧
    fst (isDenied (GetBody c)) = true.
Proof.
  unfold approvalFromComments, approvalFromCommentsWith, remainingApproversAfter.
  intros [[-> _]|(pre & c & post & remaining & -> & Hrun & Hret)]%commentsLoop_result Hst;
    [done |].
  apply loopBody_source_return in Hret
    as [Hin [(-> & _)|[(-> & Hd)|(-> & _)]]]; [done | | done].
  exists pre, c, post, remaining. split_and!; try done.
  by eapply remainingAfter_subseteq.
Qed.

Lemma denied_only_on_denial_witness :
  ∃ pre c post remaining,
    [mkComment "alice" "yes"; mkComment "bob" "no"] = pre ++ c :: post ∧
    remainingApproversAfter pre ["alice"; "bob"; "carol"] 3 [] = Some remaining ∧
    GetLogin c ∈ remaining ∧ GetLogin c ∈ ["alice"; "bob"; "carol"] ∧
    fst (isDenied (GetBody c)) = true.
Proof.
  apply (denied_only_on_denial [mkComment "alice" "yes"; mkComment "bob" "no"]
           ["alice"; "bob"; "carol"] 3 [] (mkResult approvalStatusDenied [] None)).
  - vm_compute. reflexivity.
  - reflexivity.
Defined.

(** X5. [approvalFromComments] returns the malformed-syntax error exactly
    when deployment names are configured and the loop reaches a comment
    of an approver still in [remainingApprovers] whose body holds an
    opening bracket and whose bracketed part does not match the bracket
    pattern; the status is then Pending and there are no names. *)
Theorem malformed_error_exactly_on_unmatched_bracket (comments : list IssueComment)
    (approvers : list string) (minimumApprovals : Z)
    (multipleDeploymentNames : list string) :
  approvalFromComments comments approvers minimumApprovals multipleDeploymentNames
    = Ok (mkResult approvalStatusPending [] (Some errMalformedDeploymentSyntax))
  ↔ ∃ pre c post remaining,
      comments = pre ++ c :: post ∧
      remainingApproversAfter pre approvers minimumApprovals multipleDeploymentNames
        = Some remaining ∧
      GetLogin c ∈ remaining ∧
      multipleDeploymentNames ≠ [] ∧
      Contains (GetBody c) "[" = true ∧
      ¬ matchesWithin bracketPattern (deploymentNamesRaw (GetBody c)).
Proof.
  unfold approvalFromComments, approvalFromCommentsWith, remainingApproversAfter. split.
  - intros [[[=] _]|(pre & c & post & remaining & -> & Hrun & Hret)]%commentsLoop_result.
    apply loopBody_source_return in Hret
      as [Hin [([=] & _)|[([=] & _)|(_ & Hn & Hbr & Hno)]]].
    by exists pre, c, post, remaining.
  - intros (pre & c & post & remaining & -> & Hrun & Hin & Hn & Hbr & Hno).
    rewrite commentsLoop_app, Hrun. cbn [commentsLoop].
    destruct (approversIndex_elem_of _ _ Hin) as (i & Hi & Hidx).
    rewrite (loopBody_member _ _ _ _ _ _ _ Hidx Hi).
    unfold classify, extractDeploymentNames. rewrite Hbr.
    rewrite (proj2 (len_eqb_0 _) Hn). cbn [negb andb].
    by destruct (deploymentBlock_source _ _ Hn Hbr) as [[_ ->]|[Hm _]].
Qed.

(** X6. With a threshold and a number of approvers within [int], Approved
    is returned only when the threshold in force lies between one and the
    number of approvers: a negative [minimumApprovals], or one above the
    number of approvers, never lets a call return Approved. *)
Theorem approved_needs_threshold_in_range (comments : list IssueComment)
    (approvers : list string) (minimumApprovals : Z)
    (multipleDeploymentNames : list string) (r : result) :
  len approvers < 2 ^ 63 →
  - 2 ^ 63 ≤ minimumApprovals < 2 ^ 63 →
  approvalFromComments comments approvers minimumApprovals multipleDeploymentNames
    = Ok r →
  status r = approvalStatusApproved →
  1 ≤ adjustedMinimum approvers minimumApprovals ≤ len approvers.
Proof.
  intros Hlen Hm. unfold approvalFromComments, approvalFromCommentsWith.
  intros [[-> _]|(pre & c & post & remaining & _ & Hrun & Hret)]%commentsLoop_result Hst;
    [done |].
  apply loopBody_source_return in Hret
    as [Hin [(_ & _ & Hq)|[(-> & _)|(-> & _)]]]; [|done..].
  apply remainingAfter_submseteq, submseteq_length in Hrun.
  assert (Hpos : (0 < length remaining)%nat).
  { destruct remaining; [by apply elem_of_nil in Hin | cbn; lia]. }
  assert (Hadj : - 2 ^ 63 ≤ adjustedMinimum approvers minimumApprovals < 2 ^ 63).
  { unfold adjustedMinimum. destruct (minimumApprovals =? 0); unfold len in *; lia. }
  rewrite (quorumLength_inv approvers (adjustedMinimum approvers minimumApprovals)
             (len remaining) Hadj); unfold len in *; [lia | lia | done].
Qed.

Lemma approved_needs_threshold_in_range_witness :
  1 ≤ adjustedMinimum ["alice"; "bob"] 0 ≤ len ["alice"; "bob"].
Proof.
  apply (approved_needs_threshold_in_range
           [mkComment "bob" "LGTM"; mkComment "alice" "yes."]
           ["alice"; "bob"] 0 [] (mkResult approvalStatusApproved [] None)).
  - vm_compute. reflexivity.
  - split; [vm_compute; discriminate | vm_compute; reflexivity].
  - vm_compute. reflexivity.
  - reflexivity.
Defined.


(** X8. A comment that is no vote is noise: when its body is neither an
    approval nor a denial and holds no opening bracket (or no deployment
    names are configured), the comment can be inserted or removed at any
    position, whoever wrote it, without changing what
    [approvalFromComments] does. *)
Theorem non_vote_comment_has_no_effect (pre post : list IssueComment)
    (c : IssueComment) (approvers : list string) (minimumApprovals : Z)
    (multipleDeploymentNames : list string) :
  fst (isApproved (GetBody c)) = false →
  fst (isDenied (GetBody c)) = false →
  Contains (GetBody c) "[" = false ∨ multipleDeploymentNames = [] →
  approvalFromComments (pre ++ c :: post) approvers minimumApprovals
    multipleDeploymentNames
  = approvalFromComments (pre ++ post) approvers minimumApprovals
      multipleDeploymentNames.
Proof.
  intros Ha Hd Hbr. unfold approvalFromComments, approvalFromCommentsWith.
  rewrite !commentsLoop_app.
  destruct (remainingAfter _ _ _ _ _ pre) as [remaining|]; [|done].
  cbn [commentsLoop].
  assert (Hv : classify None multipleDeploymentNames (GetBody c) = Ok Neither).
  { unfold classify, extractDeploymentNames.
    assert (Hg : Contains (GetBody c) "[" && negb (len multipleDeploymentNames =? 0)
                 = false).
    { destruct Hbr as [->| ->]; [done | apply andb_false_r]. }
    rewrite Hg. cbn. by rewrite Ha, Hd. }
  destruct (approversIndex_cases remaining (GetLogin c)) as [[Hnotin _]|(i & Hi & Hidx)].
  - by rewrite loopBody_skip.
  - by rewrite (loopBody_member _ _ _ _ _ _ _ Hidx Hi), Hv.
Qed.

Lemma non_vote_comment_has_no_effect_witness :
  approvalFromComments
    ([mkComment "alice" "lgtm"] ++ mkComment "bob" "looks good to me"
       :: [mkComment "bob" "yes"])
    ["alice"; "bob"] 2 ["blue"]
  = approvalFromComments ([mkComment "alice" "lgtm"] ++ [mkComment "bob" "yes"])
      ["alice"; "bob"] 2 ["blue"].
Proof.
  apply (non_vote_comment_has_no_effect [mkComment "alice" "lgtm"]
           [mkComment "bob" "yes"] (mkComment "bob" "looks good to me")
           ["alice"; "bob"] 2 ["blue"]).
  - vm_compute. reflexivity.
  - vm_compute. reflexivity.
  - left. vm_compute. reflexivity.
Defined.

(** X9. While the loop runs, [remainingApprovers] is drawn from
    [approvers]: it holds no name more often than [approvers] does, so it
    is never longer, and with distinct approvers it stays without
    duplicates. *)
Theorem remaining_approvers_drawn_from_approvers (comments : list IssueComment)
    (approvers : list string) (minimumApprovals : Z)
    (multipleDeploymentNames remaining : list string) :
  remainingApproversAfter comments approvers minimumApprovals multipleDeploymentNames
    = Some remaining →
  remaining ⊆+ approvers ∧
  (length remaining ≤ length approvers)%nat ∧
  (NoDup approvers → NoDup remaining).
Proof.
  unfold remainingApproversAfter. intros Hrun.
  pose proof (remainingAfter_submseteq _ _ _ _ _ _ _ Hrun) as Hsub.
  split_and!; [done | by apply submseteq_length |].
  intros Hnd. by eapply remainingAfter_NoDup.
Qed.

Lemma remaining_approvers_drawn_from_approvers_witness :
  ["carol"; "bob"] ⊆+ ["alice"; "bob"; "carol"] ∧
  (length ["carol"; "bob"] ≤ length ["alice"; "bob"; "carol"])%nat ∧
  (NoDup ["alice"; "bob"; "carol"] → NoDup ["carol"; "bob"]).
Proof.
  apply (remaining_approvers_drawn_from_approvers
           [mkComment "alice" "approve"; mkComment "bob" "hm"]
           ["alice"; "bob"; "carol"] 3 []).
  vm_compute. reflexivity.
Defined.

(** ** The helpers of the aggregator *)

Lemma approversIndexFrom_first (k : Z) (l : list string) (name : string) :
  (approversIndexFrom k l name = -1 ∧ (name ∉ l)) ∨
  ∃ i : nat, approversIndexFrom k l name = k + Z.of_nat i ∧ l !! i = Some name ∧
             ∀ j : nat, (j < i)%nat → l !! j ≠ Some name.
Proof.
  revert k. induction l as [|a l IH]; intros k; cbn.
  - left. split; [done | apply not_elem_of_nil].
  - destruct (String.eqb_spec a name) as [->|Hne].
    + right. exists O. split_and!; [lia | done | intros j Hj; lia].
    + destruct (IH (k + 1)) as [[-> Hnotin]|(i & -> & Hi & Hfirst)].
      * left. split; [done |]. rewrite not_elem_of_cons. split; [congruence | done].
      * right. exists (S i). split_and!; [lia | done |].
        intros [|j] Hj; cbn; [congruence | apply Hfirst; lia].
Qed.

(** X10. [approversIndex] returns -1 exactly when the name is not in the
    slice, and otherwise the index of its first occurrence, which is
    within the slice. *)
Theorem approversIndex_is_first_occurrence (l : list string) (name : string) :
  (approversIndex l name = -1 ∧ (name ∉ l)) ∨
  ∃ i : nat, approversIndex l name = Z.of_nat i ∧ (i < length l)%nat ∧
             l !! i = Some name ∧
             ∀ j : nat, (j < i)%nat → l !! j ≠ Some name.
Proof.
  unfold approversIndex.
  destruct (approversIndexFrom_first 0 l name) as [?|(i & Hidx & Hi & Hfirst)]; [by left |].
  right. exists i. split_and!; [by rewrite Hidx | by eapply lookup_lt_Some | done..].
Qed.

(** X11. The two vocabularies exclude each other and leave brackets out:
    no body is both an approval and a denial, and a body that holds an
    opening bracket is neither. *)
Theorem votes_are_exclusive_and_bracket_free (body : string) :
  fst (isApproved body) && fst (isDenied body) = false ∧
  fst (isApproved body) && Contains body "[" = false ∧
  fst (isDenied body) && Contains body "[" = false.
Proof.
  split_and!.
  - destruct (fst (isDenied body)) eqn:Hd; [|apply andb_false_r].
    by rewrite (isDenied_not_isApproved _ Hd).
  - destruct (fst (isApproved body)) eqn:Ha; [|done].
    by rewrite (isApproved_no_bracket _ Ha).
  - destruct (fst (isDenied body)) eqn:Hd; [|done].
    by rewrite (isDenied_no_bracket _ Hd).
Qed.


(** ** Splitting and joining *)

Lemma length_append (s t : string) :
  String.length (s +:+ t) = (String.length s + String.length t)%nat.
Proof. induction s as [|a s IH]; [done |]. rewrite append_cons. cbn. by rewrite IH. Qed.

Lemma append_inj_l (s t1 t2 : string) : s +:+ t1 = s +:+ t2 → t1 = t2.
Proof.
  induction s as [|a s IH]; [done |]. rewrite !append_cons. intros [= H]. auto.
Qed.

Lemma append_inj_r (s1 s2 t : string) : s1 +:+ t = s2 +:+ t → s1 = s2.
Proof.
  revert s2. induction s1 as [|a s1 IH]; intros [|b s2] H.
  - done.
  - apply (f_equal String.length) in H. rewrite append_nil_l, length_append in H.
    cbn in H. lia.
  - apply (f_equal String.length) in H. rewrite append_nil_l, length_append in H.
    cbn in H. lia.
  - rewrite !append_cons in H. injection H as -> H. f_equal. by apply IH.
Qed.

Lemma Contains_append (s t : string) (c : ascii) :
  Contains (s +:+ t) c = Contains s c || Contains t c.
Proof.
  induction s as [|a s IH]; [done |]. rewrite append_cons. cbn.
  by destruct (Ascii.eqb a c).
Qed.

Lemma not_Contains_allChars (s : string) (c : ascii) :
  Contains s c = false → allChars (fun a => negb (Ascii.eqb a c)) s = true.
Proof.
  induction s as [|a s IH]; [done |]. cbn.
  destruct (Ascii.eqb a c); [done |]. auto.
Qed.

Lemma Split_no_sep (s : string) (sep : ascii) :
  Contains s sep = false → Split s sep = [s].
Proof.
  induction s as [|a s IH]; [done |]. cbn.
  destruct (Ascii.eqb a sep); [done |]. intros H. by rewrite (IH H).
Qed.

Lemma Split_append_sep (s t : string) (sep : ascii) :
  Contains s sep = false → Split (s +:+ String sep t) sep = s :: Split t sep.
Proof.
  induction s as [|a s IH].
  - intros _. rewrite append_nil_l. cbn. by rewrite Ascii.eqb_refl.
  - rewrite append_cons. cbn. destruct (Ascii.eqb a sep); [done |].
    intros H. by rewrite (IH H).
Qed.

Lemma Split_cons_inv (s : string) (sep : ascii) (p : string) (rest : list string) :
  Split s sep = p :: rest →
  Contains p sep = false ∧
  ((rest = [] ∧ s = p) ∨ ∃ s', s = p +:+ String sep s' ∧ Split s' sep = rest).
Proof.
  revert p rest. induction s as [|a s IH]; intros p rest; cbn.
  - intros [= <- <-]. split; [done | by left].
  - destruct (Ascii.eqb_spec a sep) as [->|Hne].
    + intros [= <- <-]. split; [done |]. right. by exists s.
    + destruct (Split s sep) as [|p' rest'] eqn:Hs; [by apply Split_not_nil in Hs |].
      intros [= <- <-]. destruct (IH p' rest' eq_refl) as [Hp' Hcases].
      split.
      * cbn. by rewrite (proj2 (Ascii.eqb_neq a sep) Hne).
      * destruct Hcases as [[-> ->]|(s' & -> & Hs')]; [by left |].
        right. by exists s'.
Qed.

(** Two pieces exactly: one separator. *)
Lemma Split_two (s : string) (sep : ascii) (p q : string) :
  Split s sep = [p; q] ↔
  s = p +:+ String sep q ∧ Contains p sep = false ∧ Contains q sep = false.
Proof.
  split.
  - intros H. apply Split_cons_inv in H as [Hp [[[=] _]|(s' & -> & Hs')]].
    apply Split_cons_inv in Hs' as [Hq [[_ ->]|(s'' & _ & Hs'')]]; [done |].
    by apply Split_not_nil in Hs''.
  - intros (-> & Hp & Hq). by rewrite (Split_append_sep _ _ _ Hp), (Split_no_sep _ _ Hq).
Qed.

Lemma Join_cons (e : string) (rest : list string) (sep : string) :
  rest ≠ [] → Join (e :: rest) sep = e +:+ sep +:+ Join rest sep.
Proof. by destruct rest. Qed.

Lemma Contains_Join (elems : list string) (c : ascii) :
  Forall (fun e => Contains e c = false) elems → c ≠ ","%char →
  Contains (Join elems ",") c = false.
Proof.
  intros Hall Hc. induction Hall as [|e rest He _ IH]; [done |].
  destruct rest as [|e' rest]; [done |].
  rewrite Join_cons by done. rewrite !Contains_append, He, IH. cbn.
  by rewrite (proj2 (Ascii.eqb_neq _ _) (not_eq_sym Hc)).
Qed.

(** ** The text of the accepted words *)

Lemma appendNames_Join (names : list string) (i n : Z) (acc : string) :
  i + len names = n →
  appendNames i n names acc = acc +:+ Join names ",".
Proof.
  revert i acc. induction names as [|v rest IH]; intros i acc Hn; cbn [appendNames].
  - cbn. by rewrite append_nil_r.
  - destruct rest as [|v' rest].
    + assert (Hlast : (i =? n - 1) = true) by (apply Z.eqb_eq; unfold len in *; cbn in *; lia).
      rewrite Hlast. cbn [negb appendNames]. done.
    + assert (Hmid : (i =? n - 1) = false)
        by (apply Z.eqb_neq; unfold len in *; cbn [length] in *; lia).
      rewrite Hmid. cbn [negb]. rewrite IH by (unfold len in *; cbn [length] in *; lia).
      rewrite (Join_cons v (v' :: rest)) by done. by rewrite !append_assoc.
Qed.

Lemma quoteWords_map (words : list string) (suffix : string) (acc : list string) :
  quoteWords words suffix acc
  = acc ++ ((fun w => dquote +:+ w +:+ suffix +:+ dquote) <$> words).
Proof.
  revert acc. induction words as [|w words IH]; intros acc; cbn.
  - by rewrite app_nil_r.
  - by rewrite IH, <- app_assoc.
Qed.

(** X13. [formatAcceptedWords] writes every word between double quotes,
    the quoted words separated by a comma and a space. When more than one
    deployment name is configured each word is followed, inside the
    quotes, by the names between brackets, separated by commas; with one
    name or none the words stand alone. *)
Theorem formatAcceptedWords_text (words names : list string) :
  formatAcceptedWords words names
  = Join ((fun w => dquote +:+ w +:+ deploymentSuffix names +:+ dquote) <$> words) ", " ∧
  deploymentSuffix names
  = (if 1 <? len names then "[" +:+ Join names "," +:+ "]" else "").
Proof.
  split.
  - unfold formatAcceptedWords. by rewrite quoteWords_map.
  - unfold deploymentSuffix. destruct (1 <? len names); [|done].
    rewrite appendNames_Join by lia. by rewrite append_nil_l, append_assoc.
Qed.

(** X14. When more than one deployment name is configured (names without
    opening bracket and newline), the text that [formatAcceptedWords]
    quotes for an approval word is the word followed by the bracketed
    names; a comment with exactly that body, written by an approver still
    in [remainingApprovers] when the loop reaches it, makes
    [approvalFromComments] panic on the nil map. *)
Theorem advertised_targeted_approval_panics (pre post : list IssueComment)
    (c : IssueComment) (approvers : list string) (minimumApprovals : Z)
    (names remaining : list string) (word : string) :
  1 < len names →
  Forall (fun n => Contains n "[" = false ∧ Contains n newline = false) names →
  word ∈ approvedWords →
  remainingApproversAfter pre approvers minimumApprovals names = Some remaining →
  GetLogin c ∈ remaining →
  GetBody c = word +:+ deploymentSuffix names →
  dquote +:+ GetBody c +:+ dquote ∈ quoteWords approvedWords (deploymentSuffix names) [] ∧
  approvalFromComments (pre ++ c :: post) approvers minimumApprovals names
  = Panic "assignment to entry in nil map".
Proof.
  intros Hlen Hnames Hword Hpre Hin Hbody.
  assert (Hsfx : deploymentSuffix names = String "[" (Join names "," +:+ "]")).
  { unfold deploymentSuffix. rewrite (proj2 (Z.ltb_lt _ _) Hlen).
    rewrite appendNames_Join by lia. by rewrite append_nil_l. }
  split.
  { rewrite quoteWords_map, Hbody, append_assoc. cbn [app].
    apply list_elem_of_fmap. by exists word. }
  assert (Hw : Contains word "[" = false).
  { unfold approvedWords in Hword. set_unfold.
    destruct Hword as [->|[->|[->|[->|[]]]]]; reflexivity. }
  assert (Hj1 : Contains (Join names ",") "[" = false).
  { apply Contains_Join; [|done]. eapply Forall_impl; [exact Hnames |]. by intros n [? _]. }
  assert (Hj2 : Contains (Join names ",") newline = false).
  { apply Contains_Join; [|by vm_compute].
    eapply Forall_impl; [exact Hnames |]. by intros n [_ ?]. }
  assert (Hbr : Contains (GetBody c) "[" = true).
  { rewrite Hbody, Hsfx, Contains_append. cbn. rewrite Ascii.eqb_refl. apply orb_true_r. }
  assert (Hraw : deploymentNamesRaw (GetBody c) = String "[" (Join names "," +:+ "]")).
  { unfold deploymentNamesRaw. rewrite Hbody, Hsfx, (Split_append_sep _ _ _ Hw).
    rewrite Split_no_sep; [done |]. rewrite Contains_append, Hj1. reflexivity. }
  assert (Hm : matchesWithin bracketPattern (deploymentNamesRaw (GetBody c))).
  { rewrite Hraw. exists "", (String "[" (Join names "," +:+ "]")), "". split.
    - by rewrite append_nil_l, append_nil_r.
    - apply (lang_cat _ _ (String "[" "") (Join names "," +:+ "]")).
      + constructor. apply Ascii.eqb_refl.
      + apply lang_cat.
        * apply lang_star_class. by apply not_Contains_allChars.
        * constructor. apply Ascii.eqb_refl. }
  assert (Hn : names ≠ []) by (intros ->; unfold len in Hlen; cbn in Hlen; lia).
  unfold approvalFromComments, approvalFromCommentsWith, remainingApproversAfter in *.
  rewrite commentsLoop_app, Hpre. cbn [commentsLoop].
  destruct (approversIndex_elem_of _ _ Hin) as (i & Hi & Hidx).
  rewrite (loopBody_member _ _ _ _ _ _ _ Hidx Hi).
  unfold classify, extractDeploymentNames.
  rewrite Hbr, (proj2 (len_eqb_0 _) Hn). cbn [negb andb].
  by rewrite (deploymentBlock_nil_map _ _ Hn Hbr Hm).
Qed.

Lemma advertised_targeted_approval_panics_witness :
  dquote +:+ "lgtm[blue,green]" +:+ dquote
    ∈ quoteWords approvedWords (deploymentSuffix ["blue"; "green"]) [] ∧
  approvalFromComments ([] ++ mkComment "alice" "lgtm[blue,green]" :: [])
    ["alice"] 1 ["blue"; "green"]
  = Panic "assignment to entry in nil map".
Proof.
  apply (advertised_targeted_approval_panics [] []
           (mkComment "alice" "lgtm[blue,green]") ["alice"] 1
           ["blue"; "green"] ["alice"] "lgtm").
  - vm_compute. reflexivity.
  - repeat constructor.
  - apply list_elem_of_further, list_elem_of_further, list_elem_of_here.
  - vm_compute. reflexivity.
  - apply list_elem_of_here.
  - vm_compute. reflexivity.
Defined.

(** ** The environment *)

(** X15. [newApprovalEnvironment] never panics. It succeeds exactly when
    the full repository name holds one slash: the field [repo] is then
    the text after the slash, the other fields are the arguments, and no
    issue is attached yet. In every other case it returns the error whose
    message ends with the full name; the owner given separately is not
    compared with the full name. *)
Theorem newApprovalEnvironment_needs_one_slash {Client Issue : Type} (cl : Client)
    (full owner : string) (id : Z) (approverList : list string) (minimum : Z)
    (names : list string) :
  (∃ before name,
     full = before +:+ String "/" name ∧
     Contains before "/" = false ∧ Contains name "/" = false ∧
     newApprovalEnvironment (Issue := Issue) cl full owner id approverList minimum names
     = Ok (inl {| client := cl; repoFullName := full; repo := name;
                  repoOwner := owner; runID := id; approvers := approverList;
                  minimumApprovals := minimum; approvalIssue := None;
                  approvalIssueNumber := 0; mutlipleDeploymentNames := names |})) ∨
  ((∀ before name, full = before +:+ String "/" name →
      Contains before "/" = true ∨ Contains name "/" = true) ∧
   newApprovalEnvironment (Issue := Issue) cl full owner id approverList minimum names
   = Ok (inr (Errorf ("repo owner and name in unexpected format: " +:+ full)))).
Proof.
  unfold newApprovalEnvironment.
  assert (Hno : ∀ l, Split full "/" = l → length l ≠ 2%nat →
                ∀ before name, full = before +:+ String "/" name →
                Contains before "/" = true ∨ Contains name "/" = true).
  { intros l Hl Hlen before name Hfull.
    destruct (Contains before "/") eqn:Hb; [by left |].
    destruct (Contains name "/") eqn:Hc; [by right |].
    assert (Split full "/" = [before; name]) as Htwo by (by apply Split_two).
    rewrite Htwo in Hl. subst l. done. }
  destruct (Split full "/") as [|p [|q [|x rest]]] eqn:Hsplit.
  - by apply Split_not_nil in Hsplit.
  - right. split; [|done]. apply (Hno [p] eq_refl). cbn. lia.
  - left. apply Split_two in Hsplit as (-> & Hp & Hq). by exists p, q.
  - right. split; [apply (Hno (p :: q :: x :: rest) eq_refl); cbn; lia |].
    assert (Hlen : (len (p :: q :: x :: rest) =? 2) = false).
    { apply Z.eqb_neq. unfold len. cbn [length]. lia. }
    by rewrite Hlen.
Qed.

(** ** The address of the run *)

Lemma to_int_not_nil (z : Z) :
  Z.to_int z ≠ Decimal.Pos Decimal.Nil ∧ Z.to_int z ≠ Decimal.Neg Decimal.Nil.
Proof.
  destruct z as [|p|p]; cbn; split; try discriminate;
    intros [= H]; by apply (DecimalPos.Unsigned.to_uint_nonnil p).
Qed.

Lemma formatInt_inj (a b : Z) : formatInt a = formatInt b → a = b.
Proof.
  unfold formatInt. intros H.
  destruct (to_int_not_nil a) as [Ha1 Ha2]. destruct (to_int_not_nil b) as [Hb1 Hb2].
  apply (f_equal NilZero.int_of_string) in H.
  rewrite !NilZero.isi in H by done. injection H as H.
  by rewrite <- (DecimalZ.of_to a), <- (DecimalZ.of_to b), H.
Qed.

Lemma string_of_uint_no_slash (u : Decimal.uint) :
  Contains (NilEmpty.string_of_uint u) "/" = false.
Proof. induction u; cbn; auto. Qed.

Lemma formatInt_no_slash (z : Z) : Contains (formatInt z) "/" = false.
Proof.
  unfold formatInt, NilZero.string_of_int, NilZero.string_of_uint.
  destruct (Z.to_int z) as [u|u]; destruct u; cbn;
    try reflexivity; apply string_of_uint_no_slash.
Qed.

(** The text after the last separator is determined by the whole. *)
Lemma after_last_separator (a1 a2 d1 d2 : string) (sep : ascii) :
  Contains d1 sep = false → Contains d2 sep = false →
  a1 +:+ String sep d1 = a2 +:+ String sep d2 → a1 = a2 ∧ d1 = d2.
Proof.
  intros H1 H2. revert a2. induction a1 as [|x a1 IH]; intros [|y a2];
    rewrite ?append_nil_l, ?append_cons.
  - by intros [= ->].
  - intros [= <- ->]. rewrite Contains_append in H1. cbn in H1.
    rewrite Ascii.eqb_refl, orb_true_r in H1. done.
  - intros [= -> <-]. rewrite Contains_append in H2. cbn in H2.
    rewrite Ascii.eqb_refl, orb_true_r in H2. done.
  - intros [= -> H]. destruct (IH _ H) as [-> ->]. done.
Qed.

(** X16. The address that [runURL] builds determines the run: two
    environments with the same address have the same full repository name
    and the same run number. *)
Theorem runURL_determines_run {Client Issue : Type}
    (a b : approvalEnvironment Client Issue) :
  runURL a = runURL b →
  repoFullName a = repoFullName b ∧ runID a = runID b.
Proof.
  unfold runURL. intros H. apply append_inj_l in H.
  change "/actions/runs/" with ("/actions/runs" +:+ "/") in H.
  rewrite <- !append_assoc in H.
  rewrite !(append_assoc _ "/" (formatInt _)) in H.
  change ("/" +:+ formatInt (runID a)) with (String "/" (formatInt (runID a))) in H.
  change ("/" +:+ formatInt (runID b)) with (String "/" (formatInt (runID b))) in H.
  apply after_last_separator in H as [Hname Hid]; try apply formatInt_no_slash.
  split; [by apply append_inj_r in Hname | by apply formatInt_inj].
Qed.

Lemma runURL_determines_run_witness :
  "octo/app" = "octo/app" ∧ 77 = 77.
Proof.
  apply (runURL_determines_run (Client := unit) (Issue := unit)
           (mkEnvironment tt "octo/app" "app" "octo" 77 ["alice"] 1 None 0 [])
           (mkEnvironment tt "octo/app" "app" "someone" 77 [] 0 None 5 ["blue"])).
  vm_compute. reflexivity.
Defined.

(** ** The quorum on the source *)

(** X17. On the source, the premises of the quorum, read with the
    classification the source itself makes (so that no comment read
    before the decisive approval panics), give Approved without error at
    the decisive approval, whatever follows it; the names returned are
    empty. *)
Theorem quorum_on_source_is_approved (approvers : list string)
    (minimumApprovals : Z) (multipleDeploymentNames : list string)
    (pre post : list IssueComment) (c : IssueComment) (names : list string) :
  quorumPremises None approvers minimumApprovals multipleDeploymentNames pre c names →
  names = [] ∧
  approvalFromComments (pre ++ c :: post) approvers minimumApprovals
    multipleDeploymentNames = Ok (mkResult approvalStatusApproved [] None).
Proof.
  intros Hprem.
  assert (Hnames : names = []).
  { destruct Hprem as (_ & _ & _ & _ & _ & _ & _ & _ & Hv).
    apply classify_source_cases in Hv as [[[= <-] _]|[([=] & _)|[([=] & _)|([=] & _)]]].
    done. }
  split; [done |]. subst names. by apply quorum_is_approved.
Qed.

Lemma quorum_on_source_is_approved_witness :
  ([] : list string) = [] ∧
  approvalFromComments
    ([mkComment "alice" "lgtm"; mkComment "dave" "approved"]
       ++ mkComment "bob" "approve" :: [mkComment "carol" "no"])
    ["alice"; "bob"; "carol"] 2 ["blue"]
  = Ok (mkResult approvalStatusApproved [] None).
Proof.
  apply (quorum_on_source_is_approved ["alice"; "bob"; "carol"] 2 ["blue"]
           [mkComment "alice" "lgtm"; mkComment "dave" "approved"]
           [mkComment "carol" "no"] (mkComment "bob" "approve") []).
  unfold quorumPremises. split_and!.
  - apply NoDup_ListNoDup. repeat constructor; cbn; intros H;
      repeat (destruct H as [H|H]; [discriminate H |]); exact H.
  - vm_compute. discriminate.
  - vm_compute. discriminate.
  - vm_compute. reflexivity.
  - vm_compute. apply NoDup_singleton.
  - vm_compute. reflexivity.
  - intros [|[|j]] d; [| |done]; intros [= <-] _ _; right; exists [];
      vm_compute; reflexivity.
  - apply list_elem_of_further, list_elem_of_here.
  - vm_compute. intros H%list_elem_of_singleton. discriminate H.
  - vm_compute. reflexivity.
Defined.
